(** * wayland-client.c: the client side of the display-server wire protocol

    A shallow embedding of [src/wayland-client.c]: the marshaller
    [wl_proxy_vmarshal], the dispatch loop [wl_display_iterate] with
    [handle_event] and [handle_global], the global registry with its visual
    accessors, and the id allocator.

    Conventions of the embedding.
    - [uint32_t] values are [Z]; every store truncates to 32 bits, every
      arithmetic result that C wraps is reduced modulo [2^32] where it is
      computed.  Words are laid out in host order, taken little-endian.
    - An automatic array ([args[32]], [p[32]], [p[2]]) is a [list byte] of its
      C size.  Its initial content is indeterminate: it is read off
      [stack_junk], a parameter of the development.  A store or load outside
      the array has no meaning in C and ends the run with [Undefined].
    - A [const char *] is the [list byte] found at the pointer; the list's end
      stands for the terminating NUL, and a zero byte inside the list
      terminates the C string earlier ([c_str]).
    - [malloc] asks the oracle [malloc_ok]; the k-th call of a run returns
      NULL when [malloc_ok k = false].
    - The application's event handler is code outside the library that is
      handed the display.  It is the parameter [handler_body]: the calls the
      handler makes on the display before it returns.
    - [assert(0)] and [exit(EXIT_FAILURE)] end the run with [Fatal]. *)

From Stdlib Require Import Ascii String ZArith List Lia Bool.
From coqutil Require Import Byte Word.LittleEndianList.
Import ListNotations.
Local Open Scope Z_scope.

(** ** Outcomes of a run *)

Inductive fatal : Type :=
| AssertFailed      (* assert(0) *)
| ExitFailure.      (* exit(EXIT_FAILURE) *)

Inductive undefined : Type :=
| OutOfBounds       (* access outside an automatic array *)
| BadVarArg         (* va_arg finds no argument of the requested kind *)
| BadOpcode         (* methods[opcode] outside the method table *)
| ShortCopy         (* wl_connection_copy of more bytes than are buffered *)
| NullPointer.      (* access through NULL *)

Inductive outcome (A : Type) : Type :=
| Ret (a : A)
| Fatal (why : fatal)
| Undefined (why : undefined)
| OutOfFuel.

Arguments Ret {A} a.
Arguments Fatal {A} why.
Arguments Undefined {A} why.
Arguments OutOfFuel {A}.

Definition bind {A B : Type} (m : outcome A) (k : A -> outcome B) : outcome B :=
  match m with
  | Ret a => k a
  | Fatal w => Fatal w
  | Undefined w => Undefined w
  | OutOfFuel => OutOfFuel
  end.

Notation "x <- m ;; k" := (bind m (fun x => k))
  (at level 61, m at next level, right associativity).

Definition in_array {A : Type} (o : option A) : outcome A :=
  match o with
  | Some a => Ret a
  | None => Undefined OutOfBounds
  end.

(** ** 32-bit words and arrays of bytes *)

Definition uint32 (z : Z) : Z := z mod 2 ^ 32.

Definition read_bytes (a : list byte) (off n : nat) : option (list byte) :=
  if (off + n <=? length a)%nat then Some (firstn n (skipn off a)) else None.

Definition write_bytes (a : list byte) (off : nat) (bs : list byte)
  : option (list byte) :=
  if (off + length bs <=? length a)%nat
  then Some (firstn off a ++ bs ++ skipn (off + length bs) a)
  else None.

(** [a[i]] and [a[i] = v] on an array of [uint32_t]. *)
Definition load_word (a : list byte) (i : nat) : option Z :=
  option_map le_combine (read_bytes a (4 * i) 4).

Definition store_word (a : list byte) (i : nat) (v : Z) : option (list byte) :=
  write_bytes a (4 * i) (le_split 4 v).

(** ** C strings *)

Definition is_nul (b : byte) : bool := Byte.eqb b Byte.x00.

(** The bytes of the C string that starts at the head of [s]. *)
Fixpoint c_str (s : list byte) : list byte :=
  match s with
  | [] => []
  | b :: r => if is_nul b then [] else b :: c_str r
  end.

Definition strlen (s : list byte) : nat := length (c_str s).

Fixpoint strcmp_chars (a b : list byte) : Z :=
  match a, b with
  | [], [] => 0
  | [], y :: _ => 0 - byte.unsigned y
  | x :: _, [] => byte.unsigned x
  | x :: a', y :: b' =>
      if Byte.eqb x y then strcmp_chars a' b'
      else byte.unsigned x - byte.unsigned y
  end.

Definition strcmp (a b : list byte) : Z := strcmp_chars (c_str a) (c_str b).

(** Modelled from the spec: the macro [DIV_ROUNDUP] of wayland-util.h, which is
    not among the sources; the spec has a string field padded "up to the next
    4-byte boundary", so the macro counts the [a]-sized units that hold [n]
    bytes. *)
Definition DIV_ROUNDUP (n a : Z) : Z := (n + (a - 1)) / a.

(** ** Data *)

(** Modelled from the spec: the interface descriptor of wayland-util.h, "a
    name, and an ordered list of method descriptors, each with a signature
    string". *)
Record wl_method : Type := {
  method_name : string;
  signature : string
}.

Record wl_interface : Type := {
  interface_name : string;
  methods : list wl_method
}.

Record wl_global : Type := {
  global_id : Z;
  global_interface : list byte;
  global_version : Z
}.

(** [struct wl_proxy]; the [display] back pointer is the one session of the
    model.  [add_visual] leaves [interface] unset. *)
Record wl_proxy : Type := {
  interface : option wl_interface;
  proxy_id : Z
}.

Record wl_visual : Type := { visual_proxy : wl_proxy }.
Record wl_surface : Type := { surface_proxy : wl_proxy }.
Record wl_compositor : Type := { compositor_proxy : wl_proxy }.

(** Modelled from the spec: the buffered transport of connection.c, which is
    not among the sources.  It "buffers inbound bytes, exposes byte-range
    copy/consume operations and a write operation"; [pending] is the inbound
    region not yet consumed, [failed] makes the byte count negative, and
    [written] lists the buffers handed to the write operation, oldest first. *)
Record wl_connection : Type := {
  pending : list byte;
  failed : bool;
  written : list (list byte)
}.

(** One call of the application's event handler:
    [handler(display, object, opcode, size, p + 2, data)]. *)
Record handler_call : Type := {
  call_handler : Z;
  call_object : Z;
  call_opcode : Z;
  call_size : Z;
  call_payload : list byte
}.

(** What a handler does with the display it is passed, as the calls it makes
    that change the session: [wl_display_write], directly or through a
    request; [wl_display_allocate_id]; [wl_display_set_event_handler], with
    NULL for no handler; and [malloc], as [wl_display_get_compositor] and
    [wl_compositor_create_surface] call it. *)
Inductive handler_action : Type :=
| SendsBuffer (data : list byte)
| AllocatesId
| SetsEventHandler (handler : option Z)
| CallsMalloc.

(** [struct wl_display], followed by the two pieces of the process the
    functions touch besides it: the number of [malloc] calls made so far and
    the calls made to the application's handler. *)
Record wl_display : Type := {
  proxy : wl_proxy;
  connection : wl_connection;
  fd : Z;
  id : Z;
  mask : Z;
  global_list : list wl_global;
  visual_list : list wl_visual;
  event_handler : option Z;
  mallocs : nat;
  delivered : list handler_call
}.

Definition with_connection (d : wl_display) (c : wl_connection) : wl_display :=
  {| proxy := proxy d; connection := c; fd := fd d; id := id d; mask := mask d;
     global_list := global_list d; visual_list := visual_list d;
     event_handler := event_handler d; mallocs := mallocs d;
     delivered := delivered d |}.

Definition with_id (d : wl_display) (v : Z) : wl_display :=
  {| proxy := proxy d; connection := connection d; fd := fd d; id := v;
     mask := mask d; global_list := global_list d;
     visual_list := visual_list d; event_handler := event_handler d;
     mallocs := mallocs d; delivered := delivered d |}.

Definition with_proxy (d : wl_display) (p : wl_proxy) : wl_display :=
  {| proxy := p; connection := connection d; fd := fd d; id := id d;
     mask := mask d; global_list := global_list d;
     visual_list := visual_list d; event_handler := event_handler d;
     mallocs := mallocs d; delivered := delivered d |}.

Definition with_global_list (d : wl_display) (l : list wl_global) : wl_display :=
  {| proxy := proxy d; connection := connection d; fd := fd d; id := id d;
     mask := mask d; global_list := l; visual_list := visual_list d;
     event_handler := event_handler d; mallocs := mallocs d;
     delivered := delivered d |}.

Definition with_visual_list (d : wl_display) (l : list wl_visual) : wl_display :=
  {| proxy := proxy d; connection := connection d; fd := fd d; id := id d;
     mask := mask d; global_list := global_list d; visual_list := l;
     event_handler := event_handler d; mallocs := mallocs d;
     delivered := delivered d |}.

Definition with_event_handler (d : wl_display) (h : option Z) : wl_display :=
  {| proxy := proxy d; connection := connection d; fd := fd d; id := id d;
     mask := mask d; global_list := global_list d;
     visual_list := visual_list d; event_handler := h; mallocs := mallocs d;
     delivered := delivered d |}.

Definition with_mallocs (d : wl_display) (n : nat) : wl_display :=
  {| proxy := proxy d; connection := connection d; fd := fd d; id := id d;
     mask := mask d; global_list := global_list d;
     visual_list := visual_list d; event_handler := event_handler d;
     mallocs := n; delivered := delivered d |}.

Definition with_delivered (d : wl_display) (l : list handler_call) : wl_display :=
  {| proxy := proxy d; connection := connection d; fd := fd d; id := id d;
     mask := mask d; global_list := global_list d;
     visual_list := visual_list d; event_handler := event_handler d;
     mallocs := mallocs d; delivered := l |}.

(** ** The transport's operations *)

(** Modelled from the spec: [pending-bytes(mask) -> int (negative = error)]. *)
Definition wl_connection_data (c : wl_connection) (mask : Z) : Z :=
  if failed c then -1 else Z.of_nat (length (pending c)).

(** Modelled from the spec: [copy(dest buffer, length)], "peek,
    non-consuming"; the bytes copied are the first [n] pending ones. *)
Definition wl_connection_copy (c : wl_connection) (n : nat) : outcome (list byte) :=
  if (n <=? length (pending c))%nat then Ret (firstn n (pending c))
  else Undefined ShortCopy.

(** Modelled from the spec: [consume(length)], "advance past already-copied
    bytes". *)
Definition wl_connection_consume (c : wl_connection) (n : nat) : wl_connection :=
  {| pending := skipn n (pending c); failed := failed c; written := written c |}.

(** Modelled from the spec: [write(buffer, length)]. *)
Definition wl_connection_write (c : wl_connection) (data : list byte) : wl_connection :=
  {| pending := pending c; failed := failed c; written := written c ++ [data] |}.


(** ** Intrusive lists *)

(** Modelled from the spec: [struct wl_list] of wayland-util.h, a circular
    doubly linked list threaded through a head inside the display record.  The
    members are kept as a [list] in insertion order; a [link] is a position on
    the circle, the head included. *)
Inductive link : Type :=
| Head
| Member (i : nat).

(** [l->next]. *)
Definition wl_list_next {A : Type} (members : list A) (l : link) : link :=
  match l with
  | Head => match members with [] => Head | _ :: _ => Member 0 end
  | Member i => if (S i <? length members)%nat then Member (S i) else Head
  end.

(** [wl_list_insert(head.prev, elm)]: the new member goes after the last. *)
Definition wl_list_insert_last {A : Type} (members : list A) (elm : A) : list A :=
  members ++ [elm].

(** The result of [container_of(l, struct wl_visual, link)]: a pointer to the
    i-th visual, or, when [l] is the head, a pointer into the display record
    that is no visual at all.  NULL is the one remaining pointer value. *)
Inductive visual_ptr : Type :=
| NullVisual
| VisualAt (i : nat)
| HeadAlias.

Definition container_of_visual (l : link) : visual_ptr :=
  match l with
  | Head => HeadAlias
  | Member i => VisualAt i
  end.

(** The visual a pointer designates, if it designates one. *)
Definition deref_visual (d : wl_display) (v : visual_ptr) : option wl_visual :=
  match v with
  | VisualAt i => nth_error (visual_list d) i
  | _ => None
  end.

(** The arguments a variadic call passes, one per signature character. *)
Inductive arg : Type :=
| arg_uint (v : Z)            (* uint32_t, int32_t *)
| arg_string (s : list byte)  (* const char * *)
| arg_proxy (p : wl_proxy).   (* struct wl_proxy * *)

Definition scratch_words : nat := 32.
Definition scratch_bytes : nat := 128.
Definition visual_name : list byte := list_byte_of_string "visual".
Definition other_name : list byte := list_byte_of_string "other".
Definition display_name : list byte := list_byte_of_string "display".

(** ** The wire format, in the spec's words *)

(** The length word of a string field: [length = strlen(s)] in a [uint32_t]. *)
Definition string_length (s : list byte) : Z := uint32 (Z.of_nat (strlen s)).

(** Words a field takes: one for a value or an id; the length word and the
    padded bytes for a string. *)
Definition field_words (a : arg) : nat :=
  match a with
  | arg_string s => S (Z.to_nat (DIV_ROUNDUP (string_length s) 4))
  | _ => 1
  end.

Definition payload_words (ap : list arg) : nat :=
  fold_right (fun a n => (field_words a + n)%nat) 0%nat ap.

Definition message_words (ap : list arg) : nat := (2 + payload_words ap)%nat.

(** Bytes of padding after a string, up to the next 4-byte boundary. *)
Definition padding (s : list byte) : nat :=
  (4 * Z.to_nat (DIV_ROUNDUP (string_length s) 4) - Z.to_nat (string_length s))%nat.

(** One field as it leaves the marshaller.  [tail] is the part of the buffer
    the field is laid over, as it was before: the padding of a string is the
    bytes of [tail] that the string leaves uncovered. *)
Definition field_bytes (tail : list byte) (a : arg) : list byte :=
  match a with
  | arg_uint v => le_split 4 v
  | arg_proxy p => le_split 4 (proxy_id p)
  | arg_string s =>
      let n := Z.to_nat (string_length s) in
      le_split 4 (string_length s) ++ firstn n s
        ++ firstn (padding s) (skipn (4 + n) tail)
  end.

Fixpoint payload_bytes (tail : list byte) (ap : list arg) : list byte :=
  match ap with
  | [] => []
  | a :: ap =>
      field_bytes tail a ++ payload_bytes (skipn (4 * field_words a) tail) ap
  end.

(** "header = [object_id: u32][opcode | (size << 16)]; payload words follow". *)
Definition wire_message (object opcode : Z) (tail : list byte) (ap : list arg)
  : list byte :=
  let size := uint32 (Z.of_nat (message_words ap) * 4) in
  le_split 4 object
    ++ le_split 4 (Z.lor opcode (uint32 (Z.shiftl size 16)))
    ++ payload_bytes tail ap.

(** An argument agrees with a signature character. *)
Definition arg_matches (c : ascii) (a : arg) : bool :=
  match a with
  | arg_uint _ => (c =? "u")%char || (c =? "i")%char
  | arg_string _ => (c =? "s")%char
  | arg_proxy _ => (c =? "n")%char || (c =? "o")%char
  end.

Fixpoint args_match (signature : string) (ap : list arg) : bool :=
  match signature, ap with
  | EmptyString, [] => true
  | String c rest, a :: ap => arg_matches c a && args_match rest ap
  | _, _ => false
  end.

(** A 32-bit value, a proxy id of 32 bits, a string without a zero byte whose
    length is a 32-bit value. *)
Definition representable (a : arg) : Prop :=
  match a with
  | arg_uint v => 0 <= v < 2 ^ 32
  | arg_string s => c_str s = s /\ Z.of_nat (length s) < 2 ^ 32
  | arg_proxy p => 0 <= proxy_id p < 2 ^ 32
  end.

(** What a receiver gets back for one argument. *)
Inductive value : Type :=
| val_uint (v : Z)
| val_string (s : list byte)
| val_object (id : Z).

Definition value_of (a : arg) : value :=
  match a with
  | arg_uint v => val_uint v
  | arg_string s => val_string s
  | arg_proxy p => val_object (proxy_id p)
  end.

(** Modelled from the spec: the "matching Demarshal-and-decode of the
    payload", the receiving side of a call, which is not among the sources.
    It walks the signature over the message, word index [p]; each field is
    read the way [handle_global] reads the fields of a GLOBAL event: a word;
    or a length word, that many bytes, and the next field after the padded
    string. *)
Fixpoint decode_args (signature : string) (msg : list byte) (p : nat)
  : option (list value * nat) :=
  match signature with
  | EmptyString => Some ([], p)
  | String c rest =>
      match c with
      | "u"%char | "i"%char =>
          match load_word msg p with
          | Some v =>
              match decode_args rest msg (S p) with
              | Some (vs, q) => Some (val_uint v :: vs, q)
              | None => None
              end
          | None => None
          end
      | "s"%char =>
          match load_word msg p with
          | Some length =>
              match read_bytes msg (4 * S p) (Z.to_nat length) with
              | Some s =>
                  match decode_args rest msg
                          (S p + Z.to_nat (DIV_ROUNDUP length 4)) with
                  | Some (vs, q) => Some (val_string s :: vs, q)
                  | None => None
                  end
              | None => None
              end
          | None => None
          end
      | "n"%char | "o"%char =>
          match load_word msg p with
          | Some v =>
              match decode_args rest msg (S p) with
              | Some (vs, q) => Some (val_object v :: vs, q)
              | None => None
              end
          | None => None
          end
      | _ => None
      end
  end.

(** No recorded global carries the interface name [name]. *)
Definition no_match (globals : list wl_global) (name : list byte) : Prop :=
  forall g : wl_global, In g globals -> strcmp (global_interface g) name <> 0.

(** "Record(id, interface-name, version): appends to the insertion-ordered
    sequence; if interface-name equals "visual", also appends a Visual
    record". *)
Definition record_global (d : wl_display) (g : wl_global) : wl_display :=
  let d := with_global_list d (global_list d ++ [g]) in
  if strcmp (global_interface g) visual_name =? 0
  then with_visual_list d
         (visual_list d ++
            [{| visual_proxy := {| interface := None;
                                   proxy_id := global_id g |} |}])
  else d.

(** ** Sample sessions, used to run the model on concrete inputs *)

Definition sample_junk : nat -> byte := fun _ => Byte.xaa.

(** The allocator that grants every request. *)
Definition granted : nat -> bool := fun _ => true.


(** Handler 1 answers every event by taking an id and sending the event's
    payload back; handler 2 hands over to handler 1; the others only look at
    what they are passed. *)
Definition sample_handlers
  : Z -> handler_call -> wl_display -> list handler_action :=
  fun h call _ =>
    if h =? 1 then [AllocatesId; SendsBuffer (call_payload call)]
    else if h =? 2 then [SetsEventHandler (Some 1)]
    else [].

Definition sample_interface : wl_interface :=
  {| interface_name := "sample";
     methods := [ {| method_name := "announce"; signature := "usu" |};
                  {| method_name := "rename"; signature := "s" |};
                  {| method_name := "destroy"; signature := "" |} ] |}.

Definition sample_proxy : wl_proxy :=
  {| interface := Some sample_interface; proxy_id := 7 |}.

Definition sample_surface : wl_surface := {| surface_proxy := sample_proxy |}.

(** A session whose counter holds [seed] and whose transport has buffered
    [inbound]; its registry is empty and a handler is registered. *)
Definition sample_display (seed : Z) (inbound : list byte) : wl_display :=
  {| proxy := {| interface := None; proxy_id := 0 |};
     connection := {| pending := inbound; failed := false; written := [] |};
     fd := 3; id := seed; mask := 0;
     global_list := []; visual_list := [];
     event_handler := Some 1; mallocs := 1; delivered := [] |}.

Definition sample_args : list arg :=
  [arg_uint 5; arg_string visual_name; arg_uint 9].

(** A string of 120 bytes: with the header and its length word it takes 33
    words. *)
Definition long_args : list arg := [arg_string (repeat Byte.x61 120)].

(** A string of 200 bytes, longer than the whole buffer. *)
Definition longer_args : list arg := [arg_string (repeat Byte.x62 200)].

(** The first 12 bytes of a 16-byte message for object 9, opcode 2, and the
    4 bytes that complete it. *)
Definition partial_event : list byte :=
  le_split 4 9 ++ le_split 4 (Z.lor 2 (Z.shiftl 16 16)) ++ le_split 4 41.


(** A complete message of 132 bytes for object 9, opcode 2. *)
Definition oversize_event : list byte :=
  le_split 4 9 ++ le_split 4 (Z.lor 2 (Z.shiftl 132 16))
    ++ repeat Byte.x01 124.

(** A complete GLOBAL event of 20 bytes whose length word announces a name
    of 1000 bytes. *)
Definition lying_event : list byte :=
  le_split 4 1 ++ le_split 4 (Z.lor 3 (Z.shiftl 20 16))
    ++ le_split 4 10 ++ le_split 4 1000 ++ le_split 4 0.

(** An interface with 65537 methods without arguments. *)
Definition wide_interface : wl_interface :=
  {| interface_name := "wide";
     methods := repeat {| method_name := "m"; signature := "" |}
                  (Z.to_nat 65537) |}.

Section Client.

#[local] Set Default Proof Using "Type".
#[local] Set Proof Using Clear Unused.

(** Indeterminate bytes found in automatic storage, by offset. *)
Variable stack_junk : nat -> byte.
(** Whether the k-th [malloc] of the run succeeds. *)
Variable malloc_ok : nat -> bool.
(** The application's handlers: the calls handler [h] makes on the display
    when it is called with [call], the session being [d]. *)
Variable handler_body : Z -> handler_call -> wl_display -> list handler_action.
(** Constants and tables of wayland-protocol.h, which is not among the
    sources. *)
Variable WL_DISPLAY_GLOBAL : Z.
Variable WL_COMPOSITOR_CREATE_SURFACE WL_COMPOSITOR_COMMIT : Z.
Variable WL_SURFACE_DESTROY WL_SURFACE_ATTACH WL_SURFACE_MAP : Z.
Variable WL_SURFACE_COPY WL_SURFACE_DAMAGE : Z.
Variable wl_display_interface wl_compositor_interface wl_surface_interface
  : wl_interface.
Variable WL_CONNECTION_READABLE : Z.

Definition uninitialized (n : nat) : list byte := map stack_junk (seq 0 n).

Definition malloc (d : wl_display) : bool * wl_display :=
  (malloc_ok (mallocs d), with_mallocs d (S (mallocs d))).

(** ** Registry *)

Definition add_visual (d : wl_display) (global : wl_global) : wl_display :=
  let '(ok, d) := malloc d in
  if negb ok then d
  else
    let visual := {| visual_proxy :=
                       {| interface := None; proxy_id := global_id global |} |} in
    with_visual_list d (wl_list_insert_last (visual_list d) visual).

Definition wl_display_get_argb_visual (d : wl_display) : visual_ptr :=
  container_of_visual (wl_list_next (visual_list d) Head).

Definition wl_display_get_premultiplied_argb_visual (d : wl_display) : visual_ptr :=
  container_of_visual
    (wl_list_next (visual_list d) (wl_list_next (visual_list d) Head)).

Definition wl_display_get_rgb_visual (d : wl_display) : visual_ptr :=
  container_of_visual
    (wl_list_next (visual_list d)
       (wl_list_next (visual_list d) (wl_list_next (visual_list d) Head))).

Fixpoint get_object_id_scan (globals : list wl_global) (name : list byte) : Z :=
  match globals with
  | [] => 0
  | global :: rest =>
      if strcmp (global_interface global) name =? 0 then global_id global
      else get_object_id_scan rest name
  end.

Definition wl_display_get_object_id (d : wl_display) (name : list byte) : Z :=
  get_object_id_scan (global_list d) name.

(** [p] is a pointer into an array of words: the array and a word index. *)
Definition handle_global (d : wl_display) (p : list byte * nat) (size : Z)
  : outcome wl_display :=
  let '(buf, base) := p in
  let '(ok, d) := malloc d in
  if negb ok then Ret d
  else
    gid <- in_array (load_word buf base) ;;
    length <- in_array (load_word buf (base + 1)) ;;
    let '(ok, d) := malloc d in
    if negb ok then Ret d
    else
      name <- in_array (read_bytes buf (4 * (base + 2)) (Z.to_nat length)) ;;
      version <- in_array
        (load_word buf (base + 2 + Z.to_nat (DIV_ROUNDUP length 4))) ;;
      let global := {| global_id := gid; global_interface := name;
                       global_version := version |} in
      let d := with_global_list d (wl_list_insert_last (global_list d) global) in
      if strcmp (global_interface global) visual_name =? 0
      then Ret (add_visual d global)
      else Ret d.

(** ** What the application may call *)

(** [display->event_handler = handler;] with [None] for NULL. *)
Definition wl_display_set_event_handler (d : wl_display) (handler : option Z)
  : wl_display :=
  with_event_handler d handler.

(** [return display->id++;] *)
Definition wl_display_allocate_id (d : wl_display) : Z * wl_display :=
  (id d, with_id d (uint32 (id d + 1))).

Definition wl_display_write (d : wl_display) (data : list byte) : wl_display :=
  with_connection d (wl_connection_write (connection d) data).

Definition run_handler_action (d : wl_display) (a : handler_action)
  : wl_display :=
  match a with
  | SendsBuffer data => wl_display_write d data
  | AllocatesId => snd (wl_display_allocate_id d)
  | SetsEventHandler handler => wl_display_set_event_handler d handler
  | CallsMalloc => snd (malloc d)
  end.

(** The indirect call [display->event_handler(display, object, opcode, size,
    p + 2, display->event_handler_data)]: the call is recorded, then the
    handler's own calls on the display take place in order. *)
Definition call_event_handler (d : wl_display) (call : handler_call)
  : wl_display :=
  let d := with_delivered d (delivered d ++ [call]) in
  fold_left run_handler_action (handler_body (call_handler call) call d) d.

(** ** Dispatch *)

Definition handle_event (d : wl_display) (object opcode size : Z)
  : outcome wl_display :=
  let p := uninitialized scratch_bytes in
  bytes <- wl_connection_copy (connection d) (Z.to_nat size) ;;
  p <- in_array (write_bytes p 0 bytes) ;;
  d <- (if (object =? 1) && (opcode =? WL_DISPLAY_GLOBAL)
        then handle_global d (p, 2%nat) size
        else match event_handler d with
             | Some h =>
                 Ret (call_event_handler d
                        {| call_handler := h; call_object := object;
                           call_opcode := opcode; call_size := size;
                           call_payload :=
                             firstn (Z.to_nat size - 8) (skipn 8 p) |})
             | None => Ret d
             end) ;;
  Ret (with_connection d (wl_connection_consume (connection d) (Z.to_nat size))).

(** Lines 277-279 of [wl_display_iterate]: the two header words unpacked into
    object id, opcode and size. *)
Definition unpack_header (p : list byte) : outcome (Z * Z * Z) :=
  object <- in_array (load_word p 0) ;;
  p1 <- in_array (load_word p 1) ;;
  Ret (object, Z.land p1 65535, Z.shiftr p1 16).

(** The [while (len > 0)] loop; [fuel] bounds the number of messages
    handled. *)
Fixpoint iterate_loop (fuel : nat) (d : wl_display) (len : Z)
  : outcome (wl_display * Z) :=
  if len >? 0 then
    if len <? 8 then Ret (d, len)
    else
      bytes <- wl_connection_copy (connection d) 8 ;;
      p <- in_array (write_bytes (uninitialized 8) 0 bytes) ;;
      header <- unpack_header p ;;
      let '(object, opcode, size) := header in
      if len <? size then Ret (d, len)
      else
        match fuel with
        | O => OutOfFuel
        | S fuel =>
            d <- handle_event d object opcode size ;;
            iterate_loop fuel d (len - size)
        end
  else Ret (d, len).

Definition wl_display_iterate (fuel : nat) (d : wl_display) (mask : Z)
  : outcome wl_display :=
  let len := wl_connection_data (connection d) mask in
  r <- iterate_loop fuel d len ;;
  let '(d, len) := r in
  if len <? 0 then Fatal ExitFailure else Ret d.

(** ** Marshalling *)

(** The [for] loop over the signature; [p] is the word index into [args]. *)
Fixpoint vmarshal_loop (signature : string) (ap : list arg)
    (args : list byte) (p : nat) : outcome (list byte * nat) :=
  match signature with
  | EmptyString => Ret (args, p)
  | String c rest =>
      match c with
      | "000"%char => Ret (args, p)
      | "u"%char | "i"%char =>
          match ap with
          | arg_uint v :: ap =>
              args <- in_array (store_word args p v) ;;
              vmarshal_loop rest ap args (S p)
          | _ => Undefined BadVarArg
          end
      | "s"%char =>
          match ap with
          | arg_string s :: ap =>
              let length := uint32 (Z.of_nat (strlen s)) in
              args <- in_array (store_word args p length) ;;
              args <- in_array
                (write_bytes args (4 * S p) (firstn (Z.to_nat length) s)) ;;
              vmarshal_loop rest ap args
                (S p + Z.to_nat (DIV_ROUNDUP length 4))
          | _ => Undefined BadVarArg
          end
      | "n"%char | "o"%char =>
          match ap with
          | arg_proxy proxy :: ap =>
              args <- in_array (store_word args p (proxy_id proxy)) ;;
              vmarshal_loop rest ap args (S p)
          | _ => Undefined BadVarArg
          end
      | _ => Fatal AssertFailed
      end
  end.

Definition method_signature (target : wl_proxy) (opcode : Z) : outcome string :=
  match interface target with
  | None => Undefined BadOpcode
  | Some i =>
      match nth_error (methods i) (Z.to_nat opcode) with
      | Some m => Ret (signature m)
      | None => Undefined BadOpcode
      end
  end.

Definition wl_proxy_vmarshal (d : wl_display) (target : wl_proxy) (opcode : Z)
    (ap : list arg) : outcome wl_display :=
  signature <- method_signature target opcode ;;
  let args := uninitialized scratch_bytes in
  r <- vmarshal_loop signature ap args 2 ;;
  let '(args, p) := r in
  let size := uint32 (Z.of_nat p * 4) in
  args <- in_array (store_word args 0 (proxy_id target)) ;;
  args <- in_array (store_word args 1 (Z.lor opcode (uint32 (Z.shiftl size 16)))) ;;
  data <- in_array (read_bytes args 0 (Z.to_nat size)) ;;
  Ret (with_connection d (wl_connection_write (connection d) data)).

Definition wl_proxy_marshal := wl_proxy_vmarshal.

Definition wl_display_get_compositor (d : wl_display)
  : outcome (option wl_compositor * wl_display) :=
  let id := wl_display_get_object_id d (list_byte_of_string "compositor") in
  if id =? 0 then Ret (None, d)
  else
    let '(ok, d) := malloc d in
    if negb ok then Undefined NullPointer
    else
      Ret (Some {| compositor_proxy :=
                     {| interface := Some wl_compositor_interface;
                        proxy_id := id |} |}, d).

Definition wl_compositor_create_surface (d : wl_display)
    (compositor : wl_compositor) : outcome (option wl_surface * wl_display) :=
  let '(ok, d) := malloc d in
  if negb ok then Ret (None, d)
  else
    let '(id, d) := wl_display_allocate_id d in
    let surface := {| surface_proxy :=
                        {| interface := Some wl_surface_interface;
                           proxy_id := id |} |} in
    d <- wl_proxy_marshal d (compositor_proxy compositor)
           WL_COMPOSITOR_CREATE_SURFACE [arg_proxy (surface_proxy surface)] ;;
    Ret (Some surface, d).

Definition wl_compositor_commit (d : wl_display) (compositor : wl_compositor)
    (key : Z) : outcome wl_display :=
  wl_proxy_marshal d (compositor_proxy compositor) WL_COMPOSITOR_COMMIT
    [arg_uint key].

Definition wl_surface_destroy (d : wl_display) (surface : wl_surface)
  : outcome wl_display :=
  wl_proxy_marshal d (surface_proxy surface) WL_SURFACE_DESTROY [].

Definition wl_surface_attach (d : wl_display) (surface : wl_surface)
    (name width height stride : Z) (visual : wl_visual) : outcome wl_display :=
  wl_proxy_marshal d (surface_proxy surface) WL_SURFACE_ATTACH
    [arg_uint name; arg_uint width; arg_uint height; arg_uint stride;
     arg_proxy (visual_proxy visual)].

Definition wl_surface_map (d : wl_display) (surface : wl_surface)
    (x y width height : Z) : outcome wl_display :=
  wl_proxy_marshal d (surface_proxy surface) WL_SURFACE_MAP
    [arg_uint x; arg_uint y; arg_uint width; arg_uint height].

Definition wl_surface_copy (d : wl_display) (surface : wl_surface)
    (dst_x dst_y name stride x y width height : Z) : outcome wl_display :=
  wl_proxy_marshal d (surface_proxy surface) WL_SURFACE_COPY
    [arg_uint dst_x; arg_uint dst_y; arg_uint name; arg_uint stride;
     arg_uint x; arg_uint y; arg_uint width; arg_uint height].

Definition wl_surface_damage (d : wl_display) (surface : wl_surface)
    (x y width height : Z) : outcome wl_display :=
  wl_proxy_marshal d (surface_proxy surface) WL_SURFACE_DAMAGE
    [arg_uint x; arg_uint y; arg_uint width; arg_uint height].

(** ** Session creation *)

(** What the system calls of [wl_display_create] return: the descriptor from
    [socket], the result of [connect], the value found in [display->id] after
    the handshake [read], and the bytes the transport has buffered when the
    first dispatch pass asks for them. *)
Record server : Type := {
  socket_result : Z;
  connect_result : Z;
  handshake : Z;
  greeting : list byte;
  greeting_failed : bool
}.

(** Modelled from the spec: [create(fd, on-mask-change, context)] of
    connection.c; the new transport holds what the server has sent. *)
Definition wl_connection_create (srv : server) : wl_connection :=
  {| pending := greeting srv; failed := greeting_failed srv; written := [] |}.

Definition wl_display_create (fuel : nat) (srv : server)
  : outcome (option wl_display) :=
  if negb (malloc_ok 0) then Ret None
  else
    (* memset(display, 0, sizeof *display) *)
    let d := {| proxy := {| interface := None; proxy_id := 0 |};
                connection := {| pending := []; failed := false; written := [] |};
                fd := socket_result srv; id := 0; mask := 0;
                global_list := []; visual_list := [];
                event_handler := None; mallocs := 1; delivered := [] |} in
    if fd d <? 0 then Ret None
    else if connect_result srv <? 0 then Ret None
    else
      let d := with_id d (handshake srv) in
      let d := with_global_list d [] in
      let d := with_visual_list d [] in
      let d := with_proxy d
                 {| interface := Some wl_display_interface;
                    proxy_id := wl_display_get_object_id d display_name |} in
      let d := with_connection d (wl_connection_create srv) in
      d <- wl_display_iterate fuel d WL_CONNECTION_READABLE ;;
      Ret (Some d).

(** ** Sequences of requests on a session *)

Inductive request : Type :=
| AllocateId
| SurfaceDestroy (surface : wl_surface).

(** Runs the requests in order and collects what [wl_display_allocate_id]
    returned. *)
Fixpoint run_requests (rs : list request) (d : wl_display)
  : outcome (list Z * wl_display) :=
  match rs with
  | [] => Ret ([], d)
  | AllocateId :: rs =>
      let '(v, d) := wl_display_allocate_id d in
      r <- run_requests rs d ;;
      Ret (v :: fst r, snd r)
  | SurfaceDestroy s :: rs =>
      d <- wl_surface_destroy d s ;;
      run_requests rs d
  end.

Definition is_allocation (r : request) : bool :=
  match r with AllocateId => true | SurfaceDestroy _ => false end.

(** How many of the requests are calls of [wl_display_allocate_id]. *)
Definition allocations (rs : list request) : nat :=
  length (filter is_allocation rs).

(** [n] consecutive calls of [wl_display_allocate_id], [n] a binary number. *)
Definition allocate_many (n : N) (d : wl_display) : wl_display :=
  N.iter n (fun d => snd (wl_display_allocate_id d)) d.

(** ** GLOBAL events on the wire *)

(** The arguments of a GLOBAL event: the global's id, its interface name, its
    version. *)
Definition global_args (gid : Z) (name : list byte) (version : Z) : list arg :=
  [arg_uint gid; arg_string name; arg_uint version].

(** The event as the server sends it, in the wire format, the name padded
    with zero bytes. *)
Definition global_event (gid : Z) (name : list byte) (version : Z) : list byte :=
  wire_message 1 WL_DISPLAY_GLOBAL (repeat Byte.x00 120)
    (global_args gid name version).

(** The session after one GLOBAL event has been handled with every allocation
    granted: the global recorded, the event's bytes consumed. *)
Definition after_global (d : wl_display) (gid : Z) (name : list byte)
    (version : Z) : wl_display :=
  let g := {| global_id := gid; global_interface := name;
              global_version := version |} in
  with_connection
    (with_mallocs (record_global d g)
       (mallocs d + (if strcmp name visual_name =? 0 then 3 else 2)))
    (wl_connection_consume (connection d)
       (length (global_event gid name version))).

(** The id a visual pointer leads to. *)
Definition visual_id (d : wl_display) (v : visual_ptr) : option Z :=
  option_map (fun v => proxy_id (visual_proxy v)) (deref_visual d v).

(** ** Events for the application's handler *)

(** An event as it travels: the object it is for, its opcode, and the bytes
    of its arguments. *)
Record event : Type := {
  event_object : Z;
  event_opcode : Z;
  event_payload : list byte
}.

Definition event_size (e : event) : Z :=
  Z.of_nat (8 + length (event_payload e)).

(** "header = [object_id: u32][opcode | (size << 16)]; payload words follow". *)
Definition event_message (e : event) : list byte :=
  le_split 4 (event_object e)
    ++ le_split 4 (Z.lor (event_opcode e) (uint32 (Z.shiftl (event_size e) 16)))
    ++ event_payload e.

(** An event with header fields in range that fits the 32 words of
    [handle_event] and is not the GLOBAL event of the display. *)
Definition deliverable (e : event) : Prop :=
  0 <= event_object e < 2 ^ 32
  /\ 0 <= event_opcode e < 2 ^ 16
  /\ event_size e <= Z.of_nat scratch_bytes
  /\ (event_object e =? 1) && (event_opcode e =? WL_DISPLAY_GLOBAL) = false.

(** The call [handle_event] makes for an event when [h] is registered. *)
Definition call_of (h : Z) (e : event) : handler_call :=
  {| call_handler := h; call_object := event_object e;
     call_opcode := event_opcode e; call_size := event_size e;
     call_payload := event_payload e |}.

Definition calls_of (handler : option Z) (es : list event) : list handler_call :=
  match handler with
  | Some h => map (call_of h) es
  | None => []
  end.

(** The calls made for the events [es] when [hs] lists, event by event, the
    handler that was registered when the event was reached. *)
Fixpoint calls_with (hs : list (option Z)) (es : list event)
  : list handler_call :=
  match hs, es with
  | h :: hs, e :: es => calls_of h [e] ++ calls_with hs es
  | _, _ => []
  end.

Definition sets_no_handler (a : handler_action) : bool :=
  match a with
  | SetsEventHandler _ => false
  | _ => true
  end.

(** Handler [h] never calls [wl_display_set_event_handler]. *)
Definition keeps_registration (h : Z) : Prop :=
  forall (call : handler_call) (d : wl_display),
    forallb sets_no_handler (handler_body h call d) = true.

(** What dispatching may do to a session, whatever the handlers do: consume
    pending bytes from the front; append globals, visuals, handler calls and
    written buffers.  The display's proxy and the transport's error state
    stay. *)
Definition session_grows (d d' : wl_display) : Prop :=
  proxy d' = proxy d
  /\ failed (connection d') = failed (connection d)
  /\ (exists n : nat, pending (connection d') = skipn n (pending (connection d)))
  /\ (exists gs, global_list d' = global_list d ++ gs)
  /\ (exists vs, visual_list d' = visual_list d ++ vs)
  /\ (exists cs, delivered d' = delivered d ++ cs)
  /\ (exists bufs, written (connection d') = written (connection d) ++ bufs).

(** What only a handler can change: the id counter, the handler slot, the
    buffers written; and the calls made. *)
Definition undisturbed (d d' : wl_display) : Prop :=
  id d' = id d
  /\ event_handler d' = event_handler d
  /\ written (connection d') = written (connection d)
  /\ delivered d' = delivered d.

(** Every visual carries the id of a recorded global whose name reads
    "visual". *)
Definition visuals_recorded (d : wl_display) : Prop :=
  Forall (fun v : wl_visual =>
            exists g : wl_global,
              In g (global_list d)
              /\ global_id g = proxy_id (visual_proxy v)
              /\ c_str (global_interface g) = visual_name)
         (visual_list d).

(** ** Signature characters *)

(** The characters the [switch] of the marshaller has a case for. *)
Definition marshalled_char (c : ascii) : bool :=
  existsb (Ascii.eqb c) ["u"; "i"; "s"; "n"; "o"]%char.

(** An argument that takes one word: a value or a proxy. *)
Definition scalar (a : arg) : bool :=
  match a with
  | arg_string _ => false
  | _ => true
  end.

(** The word a one-word argument is marshalled as. *)
Definition arg_word (a : arg) : Z :=
  match a with
  | arg_uint v => v
  | arg_proxy p => proxy_id p
  | arg_string s => string_length s
  end.

(** A request whose arguments are the words [words], as bytes: the object,
    the opcode packed with the size, the words in order. *)
Definition request_message (object opcode : Z) (words : list Z) : list byte :=
  le_split 4 object
    ++ le_split 4
         (Z.lor opcode
            (uint32 (Z.shiftl (Z.of_nat (8 + 4 * length words)) 16)))
    ++ flat_map (le_split 4) words.

Definition compositor_name : list byte := list_byte_of_string "compositor".

(** ** The readiness callback *)

Definition with_mask (d : wl_display) (m : Z) : wl_display :=
  {| proxy := proxy d; connection := connection d; fd := fd d; id := id d;
     mask := m; global_list := global_list d; visual_list := visual_list d;
     event_handler := event_handler d; mallocs := mallocs d;
     delivered := delivered d |}.

(** [display->update] with its [update_data]: the callback as the function
    from the mask it is passed to the [int] it returns, and the masks it has
    been called with, oldest first. *)
Record wl_update : Type := {
  update : option (Z -> Z);
  update_calls : list Z
}.

Definition connection_update (d : wl_display) (u : wl_update) (new_mask : Z)
  : Z * wl_display * wl_update :=
  let d := with_mask d new_mask in
  match update u with
  | Some f =>
      (f (mask d), d,
       {| update := update u; update_calls := update_calls u ++ [mask d] |})
  | None => (0, d, u)
  end.

Definition wl_display_get_fd (d : wl_display) (u : wl_update)
    (callback : option (Z -> Z)) : outcome (Z * wl_update) :=
  let u := {| update := callback; update_calls := update_calls u |} in
  match update u with
  | Some f =>
      Ret (fd d,
           {| update := update u; update_calls := update_calls u ++ [mask d] |})
  | None => Undefined NullPointer
  end.

(** The transport reports the masks [ms] one after the other. *)
Fixpoint report_masks (ms : list Z) (d : wl_display) (u : wl_update)
  : list Z * wl_display * wl_update :=
  match ms with
  | [] => ([], d, u)
  | m :: ms =>
      let '(r, d, u) := connection_update d u m in
      let '(rs, d, u) := report_masks ms d u in
      (r :: rs, d, u)
  end.

(** ** Sample events and protocol tables *)

(** Two events for the handler: 12 bytes for object 9, 8 bytes for object
    12. *)
Definition sample_events : list event :=
  [ {| event_object := 9; event_opcode := 2; event_payload := le_split 4 41 |};
    {| event_object := 12; event_opcode := 0; event_payload := [] |} ].

(** A complete header for object 9, opcode 2, that declares size 0. *)
Definition empty_size_event : list byte := le_split 4 9 ++ le_split 4 2.

(** The requests of a compositor and of a surface, in the order of their
    opcodes. *)
Definition compositor_requests : wl_interface :=
  {| interface_name := "compositor";
     methods := [ {| method_name := "create_surface"; signature := "n" |};
                  {| method_name := "commit"; signature := "u" |} ] |}.

Definition surface_requests : wl_interface :=
  {| interface_name := "surface";
     methods := [ {| method_name := "destroy"; signature := "" |};
                  {| method_name := "attach"; signature := "uuuuo" |};
                  {| method_name := "map"; signature := "iiii" |};
                  {| method_name := "copy"; signature := "iiuuiiii" |};
                  {| method_name := "damage"; signature := "iiii" |} ] |}.

(** An interface whose one method carries a character the marshaller has no
    case for. *)
Definition descriptor_interface : wl_interface :=
  {| interface_name := "descriptor";
     methods := [ {| method_name := "pass"; signature := "uh" |} ] |}.

Definition sample_compositor : wl_compositor :=
  {| compositor_proxy :=
       {| interface := Some compositor_requests; proxy_id := 4 |} |}.

Definition drawing_surface : wl_surface :=
  {| surface_proxy := {| interface := Some surface_requests; proxy_id := 8 |} |}.

Definition sample_visual : wl_visual :=
  {| visual_proxy := {| interface := None; proxy_id := 10 |} |}.

(** The allocator that refuses every request. *)
Definition refused : nat -> bool := fun _ => false.

(** A session as [sample_display], with no handler registered. *)
Definition unheard_display (seed : Z) (inbound : list byte) : wl_display :=
  with_event_handler (sample_display seed inbound) None.

(** A session whose transport has reported an error. *)
Definition broken_display (inbound : list byte) : wl_display :=
  with_connection (sample_display 100 [])
    {| pending := inbound; failed := true; written := [] |}.

(** No visual has an interface: [add_visual] sets the display and the id of
    the proxy it allocates and leaves [interface] as [malloc] returned it. *)
Definition visuals_bare (d : wl_display) : Prop :=
  Forall (fun v : wl_visual => interface (visual_proxy v) = None)
         (visual_list d).

(** Closes equations between layouts that differ by arithmetic on offsets. *)
Ltac layout := repeat first [ lia | reflexivity | progress f_equal ].

(** * Properties *)

(** ** Arrays of bytes *)

Lemma write_bytes_app (pre tail bs : list byte) :
  (length bs <= length tail)%nat ->
  write_bytes (pre ++ tail) (length pre) bs
  = Some (pre ++ bs ++ skipn (length bs) tail).
Proof.
  intros H. unfold write_bytes.
  rewrite length_app.
  destruct (Nat.leb_spec (length pre + length bs) (length pre + length tail)); [|lia].
  f_equal.
  rewrite firstn_app, firstn_all, Nat.sub_diag, firstn_O, app_nil_r.
  rewrite skipn_app, skipn_all2 by lia.
  replace (length pre + length bs - length pre)%nat with (length bs) by lia.
  reflexivity.
Qed.

Lemma write_bytes_outside (a : list byte) (off : nat) (bs : list byte) :
  (length a < off + length bs)%nat -> write_bytes a off bs = None.
Proof.
  intros H. unfold write_bytes.
  destruct (Nat.leb_spec (off + length bs) (length a)); [lia|reflexivity].
Qed.

Lemma write_bytes_length (a : list byte) off bs a' :
  write_bytes a off bs = Some a' -> length a' = length a.
Proof.
  unfold write_bytes.
  destruct (Nat.leb_spec (off + length bs) (length a)); [|discriminate].
  intros E; inversion E; subst.
  rewrite !length_app, length_firstn, length_skipn. lia.
Qed.

Lemma read_bytes_app (pre bs post : list byte) :
  read_bytes (pre ++ bs ++ post) (length pre) (length bs) = Some bs.
Proof.
  unfold read_bytes. rewrite !length_app.
  destruct (Nat.leb_spec (length pre + length bs)
              (length pre + (length bs + length post))); [|lia].
  f_equal.
  rewrite skipn_app, skipn_all, Nat.sub_diag, skipn_O.
  cbn [app]. rewrite firstn_app, firstn_all, Nat.sub_diag, firstn_O, app_nil_r.
  reflexivity.
Qed.

Lemma read_bytes_app' (pre bs post : list byte) off n :
  off = length pre -> n = length bs ->
  read_bytes (pre ++ bs ++ post) off n = Some bs.
Proof. intros -> ->. apply read_bytes_app. Qed.

Lemma load_word_app (pre post : list byte) (p : nat) (v : Z) :
  length pre = (4 * p)%nat ->
  load_word (pre ++ le_split 4 v ++ post) p = Some (uint32 v).
Proof.
  intros H. unfold load_word.
  rewrite (read_bytes_app' pre (le_split 4 v) post) by (rewrite ?length_le_split; lia).
  cbn [option_map]. rewrite le_combine_split. reflexivity.
Qed.

Lemma store_word_app (pre tail : list byte) (p : nat) (v : Z) :
  length pre = (4 * p)%nat -> (4 <= length tail)%nat ->
  store_word (pre ++ tail) p v = Some (pre ++ le_split 4 v ++ skipn 4 tail).
Proof.
  intros H Ht. unfold store_word. rewrite <- H.
  rewrite write_bytes_app by (rewrite length_le_split; lia).
  rewrite length_le_split. reflexivity.
Qed.

(** ** Arithmetic of string fields *)

Lemma DIV_ROUNDUP_covers (n : Z) :
  0 <= n -> n <= 4 * DIV_ROUNDUP n 4 < n + 4.
Proof.
  intros H. unfold DIV_ROUNDUP. Z.div_mod_to_equations. lia.
Qed.

Lemma string_length_bounds (s : list byte) :
  0 <= string_length s <= Z.of_nat (strlen s).
Proof.
  unfold string_length, uint32.
  pose proof (Z.mod_pos_bound (Z.of_nat (strlen s)) (2 ^ 32) ltac:(lia)).
  pose proof (Z.mod_le (Z.of_nat (strlen s)) (2 ^ 32) ltac:(lia) ltac:(lia)).
  lia.
Qed.

Lemma c_str_length (s : list byte) : (length (c_str s) <= length s)%nat.
Proof.
  induction s as [|b r IH]; cbn [c_str length]; [lia|].
  destruct (is_nul b); cbn [length]; lia.
Qed.

Lemma c_str_prefix (s : list byte) : firstn (strlen s) s = c_str s.
Proof.
  unfold strlen.
  induction s as [|b r IH]; cbn [c_str]; [reflexivity|].
  destruct (is_nul b); cbn [length firstn]; [reflexivity|].
  now rewrite IH.
Qed.

Lemma string_copy_length (s : list byte) :
  length (firstn (Z.to_nat (string_length s)) s) = Z.to_nat (string_length s).
Proof.
  rewrite length_firstn.
  pose proof (string_length_bounds s). pose proof (c_str_length s).
  unfold strlen in *. lia.
Qed.

Lemma padding_spec (s : list byte) :
  (Z.to_nat (string_length s) + padding s
   = 4 * Z.to_nat (DIV_ROUNDUP (string_length s) 4))%nat
  /\ (padding s < 4)%nat.
Proof.
  unfold padding.
  pose proof (string_length_bounds s) as [H _].
  pose proof (DIV_ROUNDUP_covers _ H). lia.
Qed.

(** ** The marshalling loop *)

Lemma arg_matches_uint c v rest ap args p :
  arg_matches c (arg_uint v) = true ->
  vmarshal_loop (String c rest) (arg_uint v :: ap) args p
  = (args <- in_array (store_word args p v) ;; vmarshal_loop rest ap args (S p)).
Proof.
  cbn [arg_matches]. rewrite orb_true_iff, !Ascii.eqb_eq.
  intros [-> | ->]; reflexivity.
Qed.

Lemma arg_matches_proxy c q rest ap args p :
  arg_matches c (arg_proxy q) = true ->
  vmarshal_loop (String c rest) (arg_proxy q :: ap) args p
  = (args <- in_array (store_word args p (proxy_id q)) ;;
     vmarshal_loop rest ap args (S p)).
Proof.
  cbn [arg_matches]. rewrite orb_true_iff, !Ascii.eqb_eq.
  intros [-> | ->]; reflexivity.
Qed.

Lemma arg_matches_string c s rest ap args p :
  arg_matches c (arg_string s) = true ->
  vmarshal_loop (String c rest) (arg_string s :: ap) args p
  = (args <- in_array (store_word args p (string_length s)) ;;
     args <- in_array
       (write_bytes args (4 * S p) (firstn (Z.to_nat (string_length s)) s)) ;;
     vmarshal_loop rest ap args
       (S p + Z.to_nat (DIV_ROUNDUP (string_length s) 4))).
Proof.
  cbn [arg_matches]. rewrite Ascii.eqb_eq.
  intros ->; reflexivity.
Qed.

(** When the fields fit the buffer, the loop lays them out one after the
    other and stops behind the last. *)
Lemma vmarshal_loop_fits (signature : string) :
  forall (ap : list arg) (pre tail : list byte) (p : nat),
    args_match signature ap = true ->
    length pre = (4 * p)%nat ->
    (4 * payload_words ap <= length tail)%nat ->
    vmarshal_loop signature ap (pre ++ tail) p
    = Ret (pre ++ payload_bytes tail ap ++ skipn (4 * payload_words ap) tail,
           (p + payload_words ap)%nat).
Proof.
  induction signature as [|c rest IH]; intros ap pre tail p Hm Hpre Hfit.
  - destruct ap; [|discriminate].
    cbn [vmarshal_loop payload_bytes payload_words fold_right app].
    rewrite Nat.mul_0_r, skipn_O, Nat.add_0_r. reflexivity.
  - destruct ap as [|a ap]; [discriminate|].
    cbn [args_match] in Hm. apply andb_true_iff in Hm as [Hc Hm].
    cbn [payload_words fold_right] in Hfit |- *.
    fold (payload_words ap) in Hfit |- *.
    destruct a as [v | s | q].
    + rewrite arg_matches_uint by assumption.
      cbn [field_words] in Hfit |- *.
      rewrite store_word_app by lia. cbn [in_array bind].
      replace (pre ++ le_split 4 v ++ skipn 4 tail)
        with ((pre ++ le_split 4 v) ++ skipn 4 tail) by now rewrite <- app_assoc.
      rewrite IH; [| assumption | rewrite length_app, length_le_split; lia
                   | rewrite length_skipn; lia].
      cbn [payload_bytes field_bytes field_words].
      rewrite skipn_skipn, <- !app_assoc.
      layout.
    + rewrite arg_matches_string by assumption.
      cbn [field_words] in Hfit |- *.
      pose proof (padding_spec s) as [Hpad Hpad4].
      pose proof (string_copy_length s) as Hcopy.
      set (n := Z.to_nat (string_length s)) in *.
      set (w := Z.to_nat (DIV_ROUNDUP (string_length s) 4)) in *.
      rewrite store_word_app by lia. cbn [in_array bind].
      replace (pre ++ le_split 4 (string_length s) ++ skipn 4 tail)
        with ((pre ++ le_split 4 (string_length s)) ++ skipn 4 tail)
        by now rewrite <- app_assoc.
      replace (4 * S p)%nat with (length (pre ++ le_split 4 (string_length s)))
        by (rewrite length_app, length_le_split; lia).
      rewrite write_bytes_app by (rewrite length_skipn; lia).
      cbn [in_array bind]. rewrite Hcopy, skipn_skipn.
      rewrite <- (firstn_skipn (padding s) (skipn (n + 4) tail)).
      rewrite skipn_skipn.
      replace ((pre ++ le_split 4 (string_length s)) ++ firstn n s
               ++ firstn (padding s) (skipn (n + 4) tail)
               ++ skipn (padding s + (n + 4)) tail)
        with ((pre ++ le_split 4 (string_length s) ++ firstn n s
               ++ firstn (padding s) (skipn (n + 4) tail))
              ++ skipn (padding s + (n + 4)) tail)
        by now rewrite <- !app_assoc.
      rewrite IH; [| assumption
                   | rewrite !length_app, length_le_split, Hcopy, length_firstn,
                       length_skipn; lia
                   | rewrite length_skipn; lia].
      cbn [payload_bytes field_bytes field_words].
      fold n. fold w.
      rewrite skipn_skipn, <- !app_assoc.
      replace (4 + n)%nat with (n + 4)%nat by lia.
      replace (padding s + (n + 4))%nat with (4 * S w)%nat by lia.
      layout.
    + rewrite arg_matches_proxy by assumption.
      cbn [field_words] in Hfit |- *.
      rewrite store_word_app by lia. cbn [in_array bind].
      replace (pre ++ le_split 4 (proxy_id q) ++ skipn 4 tail)
        with ((pre ++ le_split 4 (proxy_id q)) ++ skipn 4 tail)
        by now rewrite <- app_assoc.
      rewrite IH; [| assumption | rewrite length_app, length_le_split; lia
                   | rewrite length_skipn; lia].
      cbn [payload_bytes field_bytes field_words].
      rewrite skipn_skipn, <- !app_assoc.
      layout.
Qed.

Lemma field_bytes_length (tail : list byte) (a : arg) :
  (4 * field_words a <= length tail)%nat ->
  length (field_bytes tail a) = (4 * field_words a)%nat.
Proof.
  destruct a as [v | s | q]; cbn [field_bytes field_words]; intros H;
    rewrite ?length_le_split; try reflexivity.
  pose proof (padding_spec s) as [Hpad Hpad4].
  rewrite !length_app, length_le_split, string_copy_length, length_firstn,
    length_skipn.
  lia.
Qed.

Lemma payload_bytes_length (ap : list arg) :
  forall tail : list byte,
    (4 * payload_words ap <= length tail)%nat ->
    length (payload_bytes tail ap) = (4 * payload_words ap)%nat.
Proof.
  induction ap as [|a ap IH]; intros tail H; [reflexivity|].
  cbn [payload_bytes payload_words fold_right] in *.
  fold (payload_words ap) in *.
  rewrite length_app, field_bytes_length, IH by (rewrite ?length_skipn; lia).
  lia.
Qed.

Lemma uninitialized_length (n : nat) : length (uninitialized n) = n.
Proof. unfold uninitialized. now rewrite length_map, length_seq. Qed.

Lemma uint32_small (z : Z) : 0 <= z < 2 ^ 32 -> uint32 z = z.
Proof. intros H. unfold uint32. now apply Z.mod_small. Qed.

(** The marshaller refines the wire format: a call that fits the 32 words of
    [args] hands the transport exactly the message of the wire format, the
    padding of its strings being what [args] held there before. *)
Lemma wl_proxy_vmarshal_fits (d : wl_display) (target : wl_proxy) (opcode : Z)
    (signature : string) (ap : list arg) :
  method_signature target opcode = Ret signature ->
  args_match signature ap = true ->
  (message_words ap <= scratch_words)%nat ->
  wl_proxy_vmarshal d target opcode ap
  = Ret (wl_display_write d
           (wire_message (proxy_id target) opcode
              (skipn 8 (uninitialized scratch_bytes)) ap)).
Proof.
  intros Hsig Hm Hfit. unfold wl_proxy_vmarshal, message_words, scratch_words in *.
  rewrite Hsig. cbn [bind].
  pose proof (uninitialized_length scratch_bytes) as HU.
  set (U := uninitialized scratch_bytes) in *. unfold scratch_bytes in HU.
  rewrite <- (firstn_skipn 8 U) at 1.
  assert (Htail : length (skipn 8 U) = 120%nat) by (rewrite length_skipn; lia).
  rewrite vmarshal_loop_fits;
    [| assumption | rewrite length_firstn; lia | lia].
  cbn [bind].
  set (body := payload_bytes (skipn 8 U) ap
                 ++ skipn (4 * payload_words ap) (skipn 8 U)).
  assert (Hbody : length body = 120%nat).
  { unfold body. rewrite length_app, payload_bytes_length, length_skipn by lia. lia. }
  rewrite (store_word_app [] (firstn 8 U ++ body) 0)
    by (rewrite ?length_app, ?length_firstn; cbn [length]; lia).
  cbn [in_array bind app].
  rewrite (store_word_app (le_split 4 (proxy_id target))
             (skipn 4 (firstn 8 U ++ body)) 1)
    by (rewrite ?length_skipn, ?length_app, ?length_firstn, ?length_le_split; lia).
  cbn [in_array bind].
  rewrite skipn_skipn. change (4 + 4)%nat with 8%nat.
  rewrite skipn_app, length_firstn, (skipn_all2 (n := 8)) by (rewrite length_firstn; lia).
  replace (8 - Nat.min 8 (length U))%nat with 0%nat by lia.
  rewrite skipn_O. cbn [app]. unfold body.
  rewrite (uint32_small (Z.of_nat (2 + payload_words ap) * 4)) by lia.
  set (w1 := Z.lor opcode _).
  unfold wire_message, message_words.
  rewrite (uint32_small (Z.of_nat (2 + payload_words ap) * 4)) by lia.
  fold w1.
  replace (le_split 4 (proxy_id target) ++ le_split 4 w1
           ++ payload_bytes (skipn 8 U) ap
           ++ skipn (4 * payload_words ap) (skipn 8 U))
    with ([] ++ (le_split 4 (proxy_id target) ++ le_split 4 w1
                   ++ payload_bytes (skipn 8 U) ap)
             ++ skipn (4 * payload_words ap) (skipn 8 U))
    by (cbn [app]; now rewrite <- !app_assoc).
  rewrite read_bytes_app'; [reflexivity | reflexivity |].
  rewrite !length_app, !length_le_split, payload_bytes_length by lia.
  lia.
Qed.

(** ** Decoding what the marshaller laid out *)

Lemma decode_args_uint c v rest msg p :
  arg_matches c (arg_uint v) = true ->
  decode_args (String c rest) msg p
  = match load_word msg p with
    | Some v =>
        match decode_args rest msg (S p) with
        | Some (vs, q) => Some (val_uint v :: vs, q)
        | None => None
        end
    | None => None
    end.
Proof.
  cbn [arg_matches]. rewrite orb_true_iff, !Ascii.eqb_eq.
  intros [-> | ->]; reflexivity.
Qed.

Lemma decode_args_proxy c q rest msg p :
  arg_matches c (arg_proxy q) = true ->
  decode_args (String c rest) msg p
  = match load_word msg p with
    | Some v =>
        match decode_args rest msg (S p) with
        | Some (vs, q) => Some (val_object v :: vs, q)
        | None => None
        end
    | None => None
    end.
Proof.
  cbn [arg_matches]. rewrite orb_true_iff, !Ascii.eqb_eq.
  intros [-> | ->]; reflexivity.
Qed.

Lemma decode_args_string c s rest msg p :
  arg_matches c (arg_string s) = true ->
  decode_args (String c rest) msg p
  = match load_word msg p with
    | Some length =>
        match read_bytes msg (4 * S p) (Z.to_nat length) with
        | Some s =>
            match decode_args rest msg
                    (S p + Z.to_nat (DIV_ROUNDUP length 4)) with
            | Some (vs, q) => Some (val_string s :: vs, q)
            | None => None
            end
        | None => None
        end
    | None => None
    end.
Proof.
  cbn [arg_matches]. rewrite Ascii.eqb_eq.
  intros ->; reflexivity.
Qed.

Lemma representable_string_length (s : list byte) :
  representable (arg_string s) ->
  string_length s = Z.of_nat (length s)
  /\ firstn (Z.to_nat (string_length s)) s = s.
Proof.
  cbn [representable]. intros [Hc Hlen].
  assert (E : string_length s = Z.of_nat (length s)).
  { unfold string_length, strlen. rewrite Hc. apply uint32_small. lia. }
  split; [exact E|].
  rewrite E, Nat2Z.id. apply firstn_all.
Qed.

(** Walking the signature over a laid-out payload gives the arguments back
    and ends on the word behind the last field. *)
Lemma decode_args_payload (signature : string) :
  forall (ap : list arg) (pre tail post : list byte) (p : nat),
    args_match signature ap = true ->
    Forall representable ap ->
    length pre = (4 * p)%nat ->
    (4 * payload_words ap <= length tail)%nat ->
    decode_args signature (pre ++ payload_bytes tail ap ++ post) p
    = Some (map value_of ap, (p + payload_words ap)%nat).
Proof.
  induction signature as [|c rest IH]; intros ap pre tail post p Hm Hr Hpre Hfit.
  - destruct ap; [|discriminate].
    cbn [decode_args map payload_words fold_right]. now rewrite Nat.add_0_r.
  - destruct ap as [|a ap]; [discriminate|].
    cbn [args_match] in Hm. apply andb_true_iff in Hm as [Hc Hm].
    inversion Hr as [|? ? Ha Hr']; subst.
    cbn [payload_words fold_right payload_bytes map] in Hfit |- *.
    fold (payload_words ap) in Hfit |- *.
    destruct a as [v | s | q].
    + rewrite (decode_args_uint c v) by assumption.
      cbn [field_words field_bytes value_of] in Hfit |- *.
      rewrite <- !app_assoc, load_word_app by assumption.
      rewrite uint32_small by exact Ha.
      rewrite (app_assoc pre).
      rewrite IH; [| assumption | assumption
                   | rewrite length_app, length_le_split; lia
                   | rewrite length_skipn; lia].
      layout.
    + rewrite (decode_args_string c s) by assumption.
      cbn [field_words field_bytes value_of] in Hfit |- *.
      pose proof (padding_spec s) as [Hpad Hpad4].
      destruct (representable_string_length s Ha) as [Hlen Hcopy].
      rewrite Hcopy. rewrite <- !app_assoc, load_word_app by assumption.
      unfold string_length at 1. fold (uint32 (uint32 (Z.of_nat (strlen s)))).
      fold (string_length s).
      rewrite (uint32_small (string_length s)) by (cbn in Ha; lia).
      rewrite (app_assoc pre (le_split 4 (string_length s))).
      rewrite read_bytes_app';
        [| rewrite length_app, length_le_split; lia | rewrite Hlen; lia].
      set (pad := firstn (padding s) (skipn (4 + Z.to_nat (string_length s)) tail)).
      assert (Hp : length pad = padding s).
      { unfold pad. rewrite length_firstn, length_skipn. lia. }
      replace ((pre ++ le_split 4 (string_length s)) ++ s ++ pad
               ++ payload_bytes
                    (skipn (4 * S (Z.to_nat (DIV_ROUNDUP (string_length s) 4))) tail)
                    ap ++ post)
        with ((pre ++ le_split 4 (string_length s) ++ s ++ pad)
              ++ payload_bytes
                   (skipn (4 * S (Z.to_nat (DIV_ROUNDUP (string_length s) 4))) tail)
                   ap ++ post)
        by now rewrite <- !app_assoc.
      rewrite IH; [| assumption | assumption
                   | rewrite !length_app, length_le_split; lia
                   | rewrite length_skipn; lia].
      layout.
    + rewrite (decode_args_proxy c q) by assumption.
      cbn [field_words field_bytes value_of] in Hfit |- *.
      rewrite <- !app_assoc, load_word_app by assumption.
      rewrite uint32_small by exact Ha.
      rewrite (app_assoc pre).
      rewrite IH; [| assumption | assumption
                   | rewrite length_app, length_le_split; lia
                   | rewrite length_skipn; lia].
      layout.
Qed.

(** ** The header word *)

Lemma header_fields_disjoint (opcode size : Z) :
  0 <= opcode < 2 ^ 16 -> Z.land opcode (Z.shiftl size 16) = 0.
Proof.
  intros H. apply Z.bits_inj'. intros n Hn.
  rewrite Z.land_spec, Z.bits_0.
  destruct (Z.ltb_spec n 16).
  - rewrite Z.shiftl_spec_low by lia. apply andb_false_r.
  - replace opcode with (opcode mod 2 ^ 16) by (apply Z.mod_small; lia).
    rewrite Z.mod_pow2_bits_high by lia. reflexivity.
Qed.

Lemma header_word (opcode size : Z) :
  0 <= opcode < 2 ^ 16 ->
  Z.lor opcode (Z.shiftl size 16) = opcode + size * 2 ^ 16.
Proof.
  intros H. pose proof (Z.add_lor_land opcode (Z.shiftl size 16)) as E.
  rewrite header_fields_disjoint in E by lia.
  rewrite Z.shiftl_mul_pow2 in * by lia. lia.
Qed.

Lemma header_word_opcode (opcode size : Z) :
  0 <= opcode < 2 ^ 16 -> Z.land (opcode + size * 2 ^ 16) 65535 = opcode.
Proof.
  intros H. change 65535 with (Z.ones 16). rewrite Z.land_ones by lia.
  rewrite Z.mod_add by lia. apply Z.mod_small; lia.
Qed.

Lemma header_word_size (opcode size : Z) :
  0 <= opcode < 2 ^ 16 -> Z.shiftr (opcode + size * 2 ^ 16) 16 = size.
Proof.
  intros H. rewrite Z.shiftr_div_pow2 by lia.
  rewrite Z.div_add by lia. rewrite Z.div_small; lia.
Qed.

Lemma load_word_head (post : list byte) (v : Z) :
  load_word (le_split 4 v ++ post) 0 = Some (uint32 v).
Proof. exact (load_word_app [] post 0 v eq_refl). Qed.

(** The header built from an object id, an opcode and a size below [2^16]
    unpacks to the three of them. *)
Lemma unpack_header_packed (object opcode size : Z) (rest : list byte) :
  0 <= object < 2 ^ 32 -> 0 <= opcode < 2 ^ 16 -> 0 <= size < 2 ^ 16 ->
  unpack_header
    (le_split 4 object
       ++ le_split 4 (Z.lor opcode (uint32 (Z.shiftl size 16))) ++ rest)
  = Ret (object, opcode, size).
Proof.
  intros Ho Hop Hs. unfold unpack_header.
  rewrite load_word_head.
  cbn [in_array bind].
  rewrite (load_word_app (le_split 4 object) rest 1)
    by now rewrite length_le_split.
  cbn [in_array bind].
  assert (E : uint32 (Z.shiftl size 16) = Z.shiftl size 16).
  { apply uint32_small. rewrite Z.shiftl_mul_pow2 by lia. lia. }
  rewrite E, header_word by assumption.
  rewrite (uint32_small object), (uint32_small (opcode + size * 2 ^ 16)) by lia.
  now rewrite header_word_opcode, header_word_size.
Qed.

Lemma wire_message_length (object opcode : Z) (tail : list byte) (ap : list arg) :
  (4 * payload_words ap <= length tail)%nat ->
  length (wire_message object opcode tail ap) = (4 * message_words ap)%nat.
Proof.
  intros H. unfold wire_message, message_words.
  rewrite !length_app, !length_le_split, payload_bytes_length by assumption.
  lia.
Qed.

(** C1, as amended.  A call whose arguments match the method's signature (32-bit
    values and ids, strings without a zero byte), whose message fits the 32
    words of the marshaller's buffer and whose opcode is below 2^16 is handed
    to the transport as one message; unpacking its header gives the target's
    id, the opcode and the message's size, and decoding it by the same
    signature gives back the arguments, strings byte for byte, the decoder
    ending exactly at the end of the message, every padding byte skipped. *)
Theorem marshal_decode_roundtrip (d : wl_display) (target : wl_proxy)
    (opcode : Z) (signature : string) (ap : list arg) :
  method_signature target opcode = Ret signature ->
  args_match signature ap = true ->
  Forall representable ap ->
  (message_words ap <= scratch_words)%nat ->
  0 <= opcode < 2 ^ 16 ->
  0 <= proxy_id target < 2 ^ 32 ->
  exists msg : list byte,
    wl_proxy_vmarshal d target opcode ap = Ret (wl_display_write d msg)
    /\ unpack_header (firstn 8 msg)
       = Ret (proxy_id target, opcode, Z.of_nat (length msg))
    /\ decode_args signature msg 2
       = Some (map value_of ap, message_words ap)
    /\ length msg = (4 * message_words ap)%nat.
Proof.
  intros Hsig Hm Hr Hfit Hop Hid.
  pose proof (uninitialized_length scratch_bytes) as HU.
  set (tail := skipn 8 (uninitialized scratch_bytes)).
  assert (Htail : (4 * payload_words ap <= length tail)%nat).
  { unfold tail. rewrite length_skipn, HU.
    unfold message_words, scratch_words, scratch_bytes in *. lia. }
  exists (wire_message (proxy_id target) opcode tail ap).
  pose proof (wire_message_length (proxy_id target) opcode tail ap Htail) as Hlen.
  repeat split.
  - now apply wl_proxy_vmarshal_fits with (signature := signature).
  - rewrite Hlen. unfold wire_message.
    set (size := uint32 (Z.of_nat (message_words ap) * 4)).
    assert (Hsize : size = Z.of_nat (4 * message_words ap)).
    { unfold size. rewrite uint32_small; unfold scratch_words in *; lia. }
    rewrite (app_assoc (le_split 4 _)), firstn_app, firstn_all2
      by (rewrite length_app, !length_le_split; lia).
    rewrite length_app, !length_le_split. cbn [Nat.sub Nat.add firstn].
    rewrite <- app_assoc. rewrite <- Hsize.
    apply unpack_header_packed; unfold scratch_words in *; lia.
  - unfold wire_message.
    rewrite (app_assoc (le_split 4 _)).
    rewrite <- (app_nil_r (payload_bytes tail ap)).
    rewrite decode_args_payload;
      [reflexivity | assumption | assumption
      | now rewrite length_app, !length_le_split | assumption].
  - exact Hlen.
Qed.

(** ** The layout of one field *)

Lemma payload_words_app (before after : list arg) :
  payload_words (before ++ after)
  = (payload_words before + payload_words after)%nat.
Proof.
  induction before as [|a before IH]; [reflexivity|].
  cbn [app payload_words fold_right] in *. fold (payload_words (before ++ after)).
  fold (payload_words before). lia.
Qed.

Lemma payload_bytes_app (before after : list arg) :
  forall tail : list byte,
    payload_bytes tail (before ++ after)
    = payload_bytes tail before
        ++ payload_bytes (skipn (4 * payload_words before) tail) after.
Proof.
  induction before as [|a before IH]; intros tail.
  - cbn [app payload_bytes payload_words fold_right]. now rewrite skipn_O.
  - cbn [app payload_bytes payload_words fold_right].
    fold (payload_words before).
    rewrite IH, skipn_skipn, <- app_assoc. layout.
Qed.

Lemma uninitialized_slice (size off n : nat) :
  (off + n <= size)%nat ->
  firstn n (skipn off (uninitialized size)) = map stack_junk (seq off n).
Proof.
  intros H. unfold uninitialized.
  rewrite skipn_map, firstn_map, skipn_seq. f_equal. cbn [Nat.add].
  replace (size - off)%nat with (n + (size - off - n))%nat by lia.
  rewrite seq_app, firstn_app, length_seq, Nat.sub_diag, firstn_O, app_nil_r.
  apply firstn_all2. rewrite length_seq. lia.
Qed.

(** C8, as amended.  A string argument of a call that fits the buffer appears
    in the message, at the offset its predecessors leave, as a 4-byte length,
    then exactly that many bytes of the string, then the bytes up to the next
    4-byte boundary; these last bytes are not written by the marshaller: they
    are whatever its buffer held at those offsets before the call. *)
Theorem string_field_layout (d : wl_display) (target : wl_proxy) (opcode : Z)
    (signature : string) (before after : list arg) (s : list byte) :
  method_signature target opcode = Ret signature ->
  args_match signature (before ++ arg_string s :: after) = true ->
  (message_words (before ++ arg_string s :: after) <= scratch_words)%nat ->
  let off := (4 * message_words before)%nat in
  let n := Z.to_nat (string_length s) in
  exists msg : list byte,
    wl_proxy_vmarshal d target opcode (before ++ arg_string s :: after)
    = Ret (wl_display_write d msg)
    /\ read_bytes msg off 4 = Some (le_split 4 (string_length s))
    /\ read_bytes msg (off + 4) n = Some (firstn n s)
    /\ read_bytes msg (off + 4 + n) (padding s)
       = Some (map stack_junk (seq (off + 4 + n) (padding s)))
    /\ (padding s < 4)%nat
    /\ ((off + 4 + n + padding s) mod 4 = 0)%nat.
Proof.
  intros Hsig Hm Hfit off n.
  pose proof (uninitialized_length scratch_bytes) as HU.
  pose proof (padding_spec s) as [Hpad Hpad4].
  pose proof (string_copy_length s) as Hcopy. fold n in Hpad, Hcopy.
  unfold message_words, scratch_words, scratch_bytes in *.
  rewrite payload_words_app in Hfit.
  cbn [payload_words fold_right field_words] in Hfit.
  fold (payload_words after) in Hfit.
  set (U := uninitialized 128) in *.
  exists (wire_message (proxy_id target) opcode (skipn 8 U)
            (before ++ arg_string s :: after)).
  split.
  { apply wl_proxy_vmarshal_fits with (signature := signature); try assumption.
    unfold message_words, scratch_words. rewrite payload_words_app.
    cbn [payload_words fold_right field_words]. fold (payload_words after). lia. }
  set (pad := map stack_junk (seq (off + 4 + n) (padding s))).
  assert (Hp : length pad = padding s)
    by (unfold pad; now rewrite length_map, length_seq).
  assert (E : exists head rest : list byte,
             length head = off
             /\ wire_message (proxy_id target) opcode (skipn 8 U)
                  (before ++ arg_string s :: after)
                = head ++ le_split 4 (string_length s) ++ firstn n s
                    ++ pad ++ rest).
  { exists (le_split 4 (proxy_id target)
            ++ le_split 4
                 (Z.lor opcode
                    (uint32
                       (Z.shiftl
                          (uint32
                             (Z.of_nat
                                (message_words (before ++ arg_string s :: after))
                              * 4)) 16)))
            ++ payload_bytes (skipn 8 U) before).
    exists (payload_bytes
              (skipn (4 * field_words (arg_string s))
                 (skipn (4 * payload_words before) (skipn 8 U))) after).
    split.
    - unfold off. rewrite !length_app, !length_le_split.
      rewrite payload_bytes_length by (rewrite length_skipn; lia). lia.
    - unfold wire_message. rewrite payload_bytes_app.
      cbn [payload_bytes field_bytes field_words]. fold n.
      rewrite (skipn_skipn (4 + n)), (skipn_skipn (4 + n + _)).
      unfold U at 2. rewrite uninitialized_slice by lia.
      replace (4 + n + 4 * payload_words before + 8)%nat with (off + 4 + n)%nat
        by (unfold off; lia).
      fold pad. now rewrite <- !app_assoc. }
  destruct E as (head & rest & Hhead & ->).
  clearbody pad.
  repeat split.
  - apply read_bytes_app'; [now rewrite Hhead | now rewrite length_le_split].
  - rewrite (app_assoc head).
    apply read_bytes_app';
      [rewrite length_app, length_le_split; lia | now rewrite Hcopy].
  - rewrite (app_assoc head), (app_assoc (head ++ _)).
    apply read_bytes_app';
      [rewrite !length_app, length_le_split; lia | now rewrite Hp].
  - exact Hpad4.
  - replace (off + 4 + n + padding s)%nat
      with ((2 + payload_words before + 1
             + Z.to_nat (DIV_ROUNDUP (string_length s) 4)) * 4)%nat
      by (unfold off; lia).
    apply Nat.Div0.mod_mul.
Qed.

(** ** The id allocator *)

Lemma bind_ret_inv {A B : Type} (m : outcome A) (k : A -> outcome B) (b : B) :
  bind m k = Ret b -> exists a : A, m = Ret a /\ k a = Ret b.
Proof. destruct m; cbn [bind]; intros H; try discriminate; eauto. Qed.

Lemma in_array_ret_inv {A : Type} (o : option A) (a : A) :
  in_array o = Ret a -> o = Some a.
Proof. destruct o; cbn [in_array]; intros H; now inversion H. Qed.

(** A call changes nothing of the session but what the transport has
    written. *)
Lemma wl_proxy_vmarshal_writes (d d' : wl_display) (target : wl_proxy)
    (opcode : Z) (ap : list arg) :
  wl_proxy_vmarshal d target opcode ap = Ret d' ->
  exists data : list byte, d' = wl_display_write d data.
Proof.
  unfold wl_proxy_vmarshal. intros H.
  apply bind_ret_inv in H as (sg & _ & H).
  apply bind_ret_inv in H as ([args p] & _ & H).
  apply bind_ret_inv in H as (args1 & _ & H).
  apply bind_ret_inv in H as (args2 & _ & H).
  apply bind_ret_inv in H as (data & _ & H).
  inversion H. now exists data.
Qed.

Lemma uint32_range (z : Z) : 0 <= uint32 z < 2 ^ 32.
Proof. unfold uint32. apply Z.mod_pos_bound. lia. Qed.

Lemma uint32_add_l (a b : Z) : uint32 (uint32 a + b) = uint32 (a + b).
Proof. unfold uint32. apply Zplus_mod_idemp_l. Qed.

Lemma run_requests_ids (rs : list request) :
  forall (d d' : wl_display) (ids : list Z),
    0 <= id d < 2 ^ 32 ->
    run_requests rs d = Ret (ids, d') ->
    ids = map (fun k => uint32 (id d + Z.of_nat k)) (seq 0 (allocations rs)).
Proof.
  induction rs as [|r rs IH]; intros d d' ids Hv H.
  - cbn in H. inversion H. reflexivity.
  - destruct r as [|s].
    + cbn [run_requests wl_display_allocate_id] in H.
      apply bind_ret_inv in H as ([ids1 d1] & H1 & H).
      inversion H; subst; clear H. cbn [fst].
      apply IH in H1; [| cbn [id with_id]; apply uint32_range].
      cbn [id with_id] in H1.
      unfold allocations. cbn [filter is_allocation length seq map].
      fold (allocations rs).
      rewrite Z.add_0_r, uint32_small by assumption. f_equal.
      rewrite H1, <- seq_shift, map_map.
      apply map_ext. intros k. rewrite uint32_add_l. f_equal. lia.
    + cbn [run_requests] in H.
      apply bind_ret_inv in H as (d1 & H1 & H).
      unfold wl_surface_destroy, wl_proxy_marshal in H1.
      apply wl_proxy_vmarshal_writes in H1 as (data & ->).
      apply IH in H; [| exact Hv]. exact H.
Qed.

Lemma uint32_sequence_exact (v : Z) (n : nat) :
  0 <= v -> v + Z.of_nat n <= 2 ^ 32 ->
  map (fun k => uint32 (v + Z.of_nat k)) (seq 0 n)
  = map (fun k => v + Z.of_nat k) (seq 0 n).
Proof.
  intros Hv Hn. apply map_ext_in. intros k Hk. apply in_seq in Hk.
  apply uint32_small. lia.
Qed.

Lemma uint32_sequence_NoDup (v : Z) (n : nat) :
  Z.of_nat n <= 2 ^ 32 ->
  NoDup (map (fun k => uint32 (v + Z.of_nat k)) (seq 0 n)).
Proof.
  intros Hn. apply NoDup_map_NoDup_ForallPairs; [| apply seq_NoDup].
  intros j k Hj Hk E. apply in_seq in Hj, Hk. unfold uint32 in E.
  assert (D : (Z.of_nat j - Z.of_nat k) mod 2 ^ 32 = 0).
  { replace (Z.of_nat j - Z.of_nat k)
      with ((v + Z.of_nat j) - (v + Z.of_nat k)) by lia.
    rewrite Zminus_mod, E, Z.sub_diag. reflexivity. }
  apply Z.mod_divide in D; [| lia]. destruct D as [q D].
  assert (q = 0) by nia. lia.
Qed.

(** C4, as amended.  On a session whose counter holds the 32-bit value [v],
    whatever destroy requests are interleaved, the k-th call of
    [wl_display_allocate_id] returns [(v + k) mod 2^32]: the results are
    exactly [v, v+1, ..., v+N-1] as long as [v + N <= 2^32], and no value is
    repeated as long as [N <= 2^32]. *)
Theorem allocation_sequence (rs : list request) (d d' : wl_display)
    (ids : list Z) :
  0 <= id d < 2 ^ 32 ->
  run_requests rs d = Ret (ids, d') ->
  let N := allocations rs in
  ids = map (fun k => uint32 (id d + Z.of_nat k)) (seq 0 N)
  /\ (id d + Z.of_nat N <= 2 ^ 32 ->
      ids = map (fun k => id d + Z.of_nat k) (seq 0 N))
  /\ (Z.of_nat N <= 2 ^ 32 -> NoDup ids).
Proof.
  intros Hv H N.
  pose proof (run_requests_ids rs d d' ids Hv H) as E. fold N in E.
  repeat split.
  - exact E.
  - intros HN. rewrite E. apply uint32_sequence_exact; lia.
  - intros HN. rewrite E. now apply uint32_sequence_NoDup.
Qed.

Lemma allocate_many_succ (n : N) (d : wl_display) :
  allocate_many (N.succ n) d
  = snd (wl_display_allocate_id (allocate_many n d)).
Proof. unfold allocate_many. now rewrite N.iter_succ. Qed.

Lemma allocate_many_id (n : N) (d : wl_display) :
  id (allocate_many n d) = uint32 (uint32 (id d) + Z.of_N n) \/ n = 0%N.
Proof.
  induction n as [|n IH] using N.peano_ind; [now right|].
  left. rewrite allocate_many_succ.
  unfold wl_display_allocate_id at 1. cbn [snd id with_id].
  destruct IH as [IH | ->].
  - rewrite IH, uint32_add_l. f_equal. lia.
  - change (allocate_many 0 d) with d. rewrite uint32_add_l. reflexivity.
Qed.

(** C10.  The counter is a 32-bit value that [wl_display_allocate_id]
    returns and then increments modulo 2^32: after n calls it holds
    [(v + n) mod 2^32], after exactly 2^32 calls it holds the seed again, and
    the next call returns the seed a second time. *)
Theorem allocate_id_wraps (d : wl_display) :
  0 <= id d < 2 ^ 32 ->
  fst (wl_display_allocate_id d) = id d
  /\ id (snd (wl_display_allocate_id d)) = (id d + 1) mod 2 ^ 32
  /\ (forall n : N, id (allocate_many n d) = (id d + Z.of_N n) mod 2 ^ 32)
  /\ id (allocate_many (2 ^ 32) d) = id d
  /\ fst (wl_display_allocate_id (allocate_many (2 ^ 32) d)) = id d.
Proof.
  intros Hv.
  assert (Hn : forall n : N,
             id (allocate_many n d) = (id d + Z.of_N n) mod 2 ^ 32).
  { intros n. destruct (allocate_many_id n d) as [E | ->].
    - rewrite E, uint32_add_l. reflexivity.
    - cbn. rewrite Z.add_0_r. symmetry. apply Z.mod_small. exact Hv. }
  assert (Hw : id (allocate_many (2 ^ 32) d) = id d).
  { rewrite Hn. change (Z.of_N (2 ^ 32)) with (1 * 2 ^ 32).
    rewrite Z.mod_add by lia. apply Z.mod_small. exact Hv. }
  split; [reflexivity|]. split; [reflexivity|].
  split; [exact Hn|]. split; [exact Hw|].
  unfold wl_display_allocate_id at 1. cbn [fst]. exact Hw.
Qed.

(** ** The registry *)

Lemma get_object_id_scan_miss (globals : list wl_global) (name : list byte) :
  no_match globals name -> get_object_id_scan globals name = 0.
Proof.
  induction globals as [|g globals IH]; intros H; [reflexivity|].
  cbn [get_object_id_scan].
  destruct (Z.eqb_spec (strcmp (global_interface g) name) 0) as [E | _].
  - exfalso. apply (H g); [now left | exact E].
  - apply IH. intros g' Hg'. apply H. now right.
Qed.

Lemma get_object_id_scan_first (before after : list wl_global) (g : wl_global)
    (name : list byte) :
  no_match before name ->
  strcmp (global_interface g) name = 0 ->
  get_object_id_scan (before ++ g :: after) name = global_id g.
Proof.
  induction before as [|b before IH]; intros H E; cbn [app get_object_id_scan].
  - now rewrite E.
  - destruct (Z.eqb_spec (strcmp (global_interface b) name) 0) as [Eb | _].
    + exfalso. apply (H b); [now left | exact Eb].
    + apply IH; [| exact E]. intros g' Hg'. apply H. now right.
Qed.

(** What a returning [handle_global] has done: nothing but count a failed
    allocation, or record the global it read, and the visual with it when the
    name reads "visual" and the third allocation succeeds. *)
Lemma handle_global_ret (d d' : wl_display) (buf : list byte) (base : nat)
    (size : Z) :
  handle_global d (buf, base) size = Ret d' ->
  proxy d' = proxy d /\ connection d' = connection d /\ id d' = id d
  /\ event_handler d' = event_handler d /\ delivered d' = delivered d
  /\ ((global_list d' = global_list d /\ visual_list d' = visual_list d)
      \/ exists gid length name version,
           load_word buf base = Some gid
           /\ load_word buf (base + 1) = Some length
           /\ read_bytes buf (4 * (base + 2)) (Z.to_nat length) = Some name
           /\ load_word buf (base + 2 + Z.to_nat (DIV_ROUNDUP length 4))
              = Some version
           /\ global_list d'
              = global_list d
                  ++ [{| global_id := gid; global_interface := name;
                         global_version := version |}]
           /\ (visual_list d' = visual_list d
               \/ (strcmp name visual_name = 0
                   /\ visual_list d'
                      = visual_list d
                          ++ [{| visual_proxy :=
                                   {| interface := None;
                                      proxy_id := gid |} |}]))).
Proof.
  unfold handle_global, malloc. cbn [with_mallocs mallocs].
  destruct (malloc_ok (mallocs d)); cbn [negb].
  2:{ intros H. inversion H. cbn. tauto. }
  intros H.
  apply bind_ret_inv in H as (gid & Hgid & H).
  apply bind_ret_inv in H as (len & Hlen & H).
  apply in_array_ret_inv in Hgid, Hlen.
  destruct (malloc_ok (S (mallocs d))); cbn [negb] in H.
  2:{ inversion H. cbn. tauto. }
  apply bind_ret_inv in H as (name & Hname & H).
  apply bind_ret_inv in H as (version & Hver & H).
  apply in_array_ret_inv in Hname, Hver.
  cbn [global_interface] in H.
  repeat split;
    try (destruct (strcmp name visual_name =? 0); inversion H;
         unfold add_visual, malloc; cbn;
         destruct (malloc_ok (S (S (mallocs d)))); reflexivity).
  right. exists gid, len, name, version.
  repeat split; try assumption.
  - destruct (strcmp name visual_name =? 0); inversion H;
      unfold add_visual, malloc; cbn;
      destruct (malloc_ok (S (S (mallocs d)))); reflexivity.
  - destruct (Z.eqb_spec (strcmp name visual_name) 0) as [E | _];
      inversion H; [| now left].
    unfold add_visual, malloc. cbn.
    destruct (malloc_ok (S (S (mallocs d)))); cbn; [right | left]; auto.
Qed.

Lemma no_match_app (globals : list wl_global) (g : wl_global) (name : list byte) :
  no_match globals name ->
  strcmp (global_interface g) name <> 0 ->
  no_match (globals ++ [g]) name.
Proof.
  intros H Hg g' Hin. apply in_app_or in Hin as [Hin | [<- | []]]; auto.
Qed.

Lemma visual_accessors_not_null (d : wl_display) :
  wl_display_get_argb_visual d <> NullVisual
  /\ wl_display_get_premultiplied_argb_visual d <> NullVisual
  /\ wl_display_get_rgb_visual d <> NullVisual.
Proof.
  unfold wl_display_get_argb_visual, wl_display_get_premultiplied_argb_visual,
    wl_display_get_rgb_visual.
  repeat split;
    match goal with
    | |- container_of_visual ?l <> _ => destruct l; discriminate
    end.
Qed.

Lemma visual_accessors_registered (d : wl_display) :
  ((1 <= length (visual_list d))%nat ->
   wl_display_get_argb_visual d = VisualAt 0)
  /\ ((2 <= length (visual_list d))%nat ->
      wl_display_get_premultiplied_argb_visual d = VisualAt 1)
  /\ ((3 <= length (visual_list d))%nat ->
      wl_display_get_rgb_visual d = VisualAt 2).
Proof.
  unfold wl_display_get_argb_visual, wl_display_get_premultiplied_argb_visual,
    wl_display_get_rgb_visual.
  destruct (visual_list d) as [|v1 [|v2 [|v3 vs]]]; cbn; repeat split;
    intros; try reflexivity; lia.
Qed.

(** C7, as amended.  Looking up an interface name that no recorded global
    carries returns 0, and it still returns 0 after a GLOBAL event of another
    name has been handled.  The k-th visual accessor returns the k-th recorded
    visual when at least k are recorded; it never returns a null pointer, so
    with fewer than k visuals recorded nothing reports the miss. *)
Theorem lookup_miss (d : wl_display) (name : list byte) :
  no_match (global_list d) name ->
  wl_display_get_object_id d name = 0
  /\ (forall (buf : list byte) (base : nat) (size : Z) (d' : wl_display),
        handle_global d (buf, base) size = Ret d' ->
        (forall length registered,
            load_word buf (base + 1) = Some length ->
            read_bytes buf (4 * (base + 2)) (Z.to_nat length) = Some registered ->
            strcmp registered name <> 0) ->
        no_match (global_list d') name
        /\ wl_display_get_object_id d' name = 0)
  /\ ((1 <= length (visual_list d))%nat ->
      wl_display_get_argb_visual d = VisualAt 0)
  /\ ((2 <= length (visual_list d))%nat ->
      wl_display_get_premultiplied_argb_visual d = VisualAt 1)
  /\ ((3 <= length (visual_list d))%nat ->
      wl_display_get_rgb_visual d = VisualAt 2)
  /\ wl_display_get_argb_visual d <> NullVisual
  /\ wl_display_get_premultiplied_argb_visual d <> NullVisual
  /\ wl_display_get_rgb_visual d <> NullVisual.
Proof.
  intros Hmiss.
  split; [now apply get_object_id_scan_miss|].
  split.
  { intros buf base size d' H Hother.
    assert (Hmiss' : no_match (global_list d') name).
    { apply handle_global_ret in H
        as (_ & _ & _ & _ & _ & [[-> _] | (gid & len & nm & ver & _ & Hlen & Hnm
                                          & _ & -> & _)]).
      - exact Hmiss.
      - apply no_match_app; [exact Hmiss|]. cbn. now apply (Hother len nm). }
    split; [exact Hmiss' | now apply get_object_id_scan_miss]. }
  pose proof (visual_accessors_registered d) as (H1 & H2 & H3).
  pose proof (visual_accessors_not_null d) as (N1 & N2 & N3).
  repeat split; assumption.
Qed.

(** ** The dispatch loop *)

Lemma bind_ret_r {A : Type} (m : outcome A) : bind m Ret = m.
Proof. now destruct m. Qed.

(** [handle_event] leaves the session's own proxy and counter alone and
    consumes exactly [size] bytes. *)
(** ** What a handler can and cannot change *)

Lemma run_handler_action_keeps (d : wl_display) (a : handler_action) :
  proxy (run_handler_action d a) = proxy d
  /\ failed (connection (run_handler_action d a)) = failed (connection d)
  /\ pending (connection (run_handler_action d a)) = pending (connection d)
  /\ global_list (run_handler_action d a) = global_list d
  /\ visual_list (run_handler_action d a) = visual_list d
  /\ delivered (run_handler_action d a) = delivered d.
Proof. destruct a; cbn; repeat split; reflexivity. Qed.

Lemma run_handler_keeps (actions : list handler_action) :
  forall d : wl_display,
    proxy (fold_left run_handler_action actions d) = proxy d
    /\ failed (connection (fold_left run_handler_action actions d))
       = failed (connection d)
    /\ pending (connection (fold_left run_handler_action actions d))
       = pending (connection d)
    /\ global_list (fold_left run_handler_action actions d) = global_list d
    /\ visual_list (fold_left run_handler_action actions d) = visual_list d
    /\ delivered (fold_left run_handler_action actions d) = delivered d.
Proof.
  induction actions as [|a actions IH]; intros d; cbn [fold_left].
  - repeat split; reflexivity.
  - destruct (IH (run_handler_action d a)) as (H1 & H2 & H3 & H4 & H5 & H6).
    destruct (run_handler_action_keeps d a) as (K1 & K2 & K3 & K4 & K5 & K6).
    repeat split; congruence.
Qed.

Lemma call_event_handler_keeps (d : wl_display) (call : handler_call) :
  proxy (call_event_handler d call) = proxy d
  /\ failed (connection (call_event_handler d call)) = failed (connection d)
  /\ pending (connection (call_event_handler d call)) = pending (connection d)
  /\ global_list (call_event_handler d call) = global_list d
  /\ visual_list (call_event_handler d call) = visual_list d
  /\ delivered (call_event_handler d call) = delivered d ++ [call].
Proof.
  unfold call_event_handler.
  destruct (run_handler_keeps
              (handler_body (call_handler call) call
                 (with_delivered d (delivered d ++ [call])))
              (with_delivered d (delivered d ++ [call])))
    as (H1 & H2 & H3 & H4 & H5 & H6).
  repeat split; assumption.
Qed.

Lemma handle_event_ret (d d' : wl_display) (object opcode size : Z) :
  handle_event d object opcode size = Ret d' ->
  proxy d' = proxy d
  /\ failed (connection d') = failed (connection d)
  /\ pending (connection d')
     = skipn (Z.to_nat size) (pending (connection d)).
Proof.
  unfold handle_event. intros H.
  apply bind_ret_inv in H as (bytes & _ & H).
  apply bind_ret_inv in H as (p & _ & H).
  apply bind_ret_inv in H as (d1 & H1 & H).
  inversion H; subst; clear H.
  cbn [proxy connection with_connection wl_connection_consume failed pending].
  destruct ((object =? 1) && (opcode =? WL_DISPLAY_GLOBAL)).
  - apply handle_global_ret in H1 as (Hp & Hc & _). now rewrite Hp, Hc.
  - destruct (event_handler d) as [h|]; inversion H1; subst; clear H1.
    + match goal with
      | |- context [call_event_handler d ?c] =>
          destruct (call_event_handler_keeps d c) as (K1 & K2 & K3 & _)
      end.
      rewrite K1, K2, K3. auto.
    + auto.
Qed.

Lemma iterate_loop_unfold (fuel : nat) (d : wl_display) (len : Z) :
  iterate_loop fuel d len
  = if len >? 0 then
      if len <? 8 then Ret (d, len)
      else
        bytes <- wl_connection_copy (connection d) 8 ;;
        p <- in_array (write_bytes (uninitialized 8) 0 bytes) ;;
        header <- unpack_header p ;;
        let '(object, opcode, size) := header in
        if len <? size then Ret (d, len)
        else
          match fuel with
          | O => OutOfFuel
          | S fuel =>
              d <- handle_event d object opcode size ;;
              iterate_loop fuel d (len - size)
          end
    else Ret (d, len).
Proof. destruct fuel; reflexivity. Qed.

(** With eight bytes pending, the header the loop unpacks is the first eight
    of them. *)
Lemma iterate_loop_header (fuel : nat) (d : wl_display) (len : Z) :
  8 <= len -> (8 <= length (pending (connection d)))%nat ->
  iterate_loop fuel d len
  = (header <- unpack_header (firstn 8 (pending (connection d))) ;;
     let '(object, opcode, size) := header in
     if len <? size then Ret (d, len)
     else
       match fuel with
       | O => OutOfFuel
       | S fuel =>
           d <- handle_event d object opcode size ;;
           iterate_loop fuel d (len - size)
       end).
Proof.
  intros Hlen Hpending. rewrite iterate_loop_unfold.
  destruct (Z.gtb_spec len 0); [|lia].
  destruct (Z.ltb_spec len 8); [lia|].
  unfold wl_connection_copy.
  destruct (Nat.leb_spec 8 (length (pending (connection d)))); [|lia].
  cbn [bind].
  assert (E : write_bytes (uninitialized 8) 0 (firstn 8 (pending (connection d)))
              = Some (firstn 8 (pending (connection d)))).
  { change (write_bytes (uninitialized 8) 0)
      with (write_bytes ([] ++ uninitialized 8) (length (@nil byte))).
    rewrite write_bytes_app
      by (rewrite length_firstn, uninitialized_length; lia).
    rewrite skipn_all2 by (rewrite length_firstn, uninitialized_length; lia).
    cbn [app]. now rewrite app_nil_r. }
  rewrite E. reflexivity.
Qed.

Lemma iterate_loop_proxy (fuel : nat) :
  forall (d d' : wl_display) (len len' : Z),
    iterate_loop fuel d len = Ret (d', len') -> proxy d' = proxy d.
Proof.
  induction fuel as [|fuel IH]; intros d d' len len' H;
    rewrite iterate_loop_unfold in H;
    destruct (len >? 0); try (inversion H; reflexivity);
    destruct (len <? 8); try (inversion H; reflexivity);
    apply bind_ret_inv in H as (bytes & _ & H);
    apply bind_ret_inv in H as (p & _ & H);
    apply bind_ret_inv in H as ([[object opcode] size] & _ & H);
    destruct (len <? size); try (inversion H; reflexivity);
    try discriminate.
  apply bind_ret_inv in H as (d1 & H1 & H).
  apply handle_event_ret in H1 as (Hp & _).
  apply IH in H. congruence.
Qed.

(** One step of a pass: a complete message at the head of the pending bytes
    is handled by [handle_event], and the pass goes on behind it. *)
Lemma wl_display_iterate_step (fuel : nat) (d : wl_display) (mask : Z)
    (object opcode size : Z) :
  failed (connection d) = false ->
  (8 <= length (pending (connection d)))%nat ->
  unpack_header (firstn 8 (pending (connection d)))
  = Ret (object, opcode, size) ->
  0 <= size <= Z.of_nat (length (pending (connection d))) ->
  wl_display_iterate (S fuel) d mask
  = (d' <- handle_event d object opcode size ;;
     wl_display_iterate fuel d' mask).
Proof.
  intros Hok Hpending Hheader Hsize.
  unfold wl_display_iterate at 1, wl_connection_data. rewrite Hok.
  rewrite iterate_loop_header by lia.
  rewrite Hheader. cbn [bind].
  destruct (Z.ltb_spec (Z.of_nat (length (pending (connection d)))) size);
    [lia|].
  destruct (handle_event d object opcode size) as [d'| | |] eqn:He;
    cbn [bind]; try reflexivity.
  apply handle_event_ret in He as (_ & Hf & Hc).
  unfold wl_display_iterate, wl_connection_data. rewrite Hf, Hc, Hok.
  do 2 f_equal. rewrite length_skipn. lia.
Qed.


Lemma wl_display_iterate_short (fuel : nat) (d : wl_display) (mask : Z) :
  failed (connection d) = false ->
  (length (pending (connection d)) < 8)%nat ->
  wl_display_iterate fuel d mask = Ret d.
Proof.
  intros Hok Hshort. unfold wl_display_iterate, wl_connection_data.
  rewrite Hok, iterate_loop_unfold.
  destruct (Z.gtb_spec (Z.of_nat (length (pending (connection d)))) 0);
    cbn [bind].
  - destruct (Z.ltb_spec (Z.of_nat (length (pending (connection d)))) 8);
      [| lia].
    cbn [bind].
    destruct (Z.ltb_spec (Z.of_nat (length (pending (connection d)))) 0);
      [lia | reflexivity].
  - destruct (Z.ltb_spec (Z.of_nat (length (pending (connection d)))) 0);
      [lia | reflexivity].
Qed.

(** ** GLOBAL events *)

(** [handle_global] reads its payload the way [decode_args] reads a payload
    of signature "usu". *)
Lemma handle_global_decodes (d : wl_display) (buf : list byte) (size : Z)
    (gid : Z) (name : list byte) (version : Z) (q : nat) :
  (forall k : nat, malloc_ok k = true) ->
  decode_args "usu" buf 2
  = Some ([val_uint gid; val_string name; val_uint version], q) ->
  handle_global d (buf, 2%nat) size
  = Ret (with_mallocs
           (record_global d {| global_id := gid; global_interface := name;
                               global_version := version |})
           (mallocs d + (if strcmp name visual_name =? 0 then 3 else 2))).
Proof.
  intros Hmem H. cbn [decode_args] in H.
  destruct (load_word buf 2) as [gid'|] eqn:Hgid; [|discriminate].
  destruct (load_word buf 3) as [len|] eqn:Hlen; [|discriminate].
  destruct (read_bytes buf (4 * 4) (Z.to_nat len)) as [name'|] eqn:Hname;
    [|discriminate].
  destruct (load_word buf (4 + Z.to_nat (DIV_ROUNDUP len 4))) as [ver'|] eqn:Hver;
    [|discriminate].
  inversion H; subst; clear H.
  unfold handle_global, malloc. cbn [with_mallocs mallocs].
  rewrite !Hmem. cbn [negb Nat.add].
  rewrite Hgid, Hlen. cbn [in_array bind].
  change (4 * 4)%nat with 16%nat in Hname.
  cbn [Nat.mul Nat.add]. rewrite Hname. cbn [in_array bind].
  cbn [Nat.add] in Hver. rewrite Hver. cbn [in_array bind global_interface].
  unfold record_global, add_visual, malloc. cbn [global_interface].
  destruct (strcmp name visual_name =? 0).
  - cbn. rewrite Hmem. cbn.
    unfold with_visual_list, with_mallocs, with_global_list. cbn. layout.
  - cbn. unfold with_mallocs, with_global_list. cbn. layout.
Qed.


(** A message for object 1 with the GLOBAL opcode that carries an id, a name
    free of zero bytes and a version, whatever its padding bytes are, is
    recorded as the global it describes, provided it fits the 32 words of
    [handle_event]'s buffer. *)
Lemma handle_event_announce (d : wl_display) (tail : list byte) (gid : Z)
    (name : list byte) (version : Z) (rest : list byte) :
  (forall k : nat, malloc_ok k = true) ->
  Forall representable (global_args gid name version) ->
  (message_words (global_args gid name version) <= scratch_words)%nat ->
  (4 * payload_words (global_args gid name version) <= length tail)%nat ->
  let msg := wire_message 1 WL_DISPLAY_GLOBAL tail
               (global_args gid name version) in
  pending (connection d) = msg ++ rest ->
  handle_event d 1 WL_DISPLAY_GLOBAL (Z.of_nat (length msg))
  = Ret (with_connection
           (with_mallocs
              (record_global d {| global_id := gid; global_interface := name;
                                  global_version := version |})
              (mallocs d + (if strcmp name visual_name =? 0 then 3 else 2)))
           (wl_connection_consume (connection d) (length msg))).
Proof.
  intros Hmem Hr Hfit Htail msg Hpending.
  pose proof (wire_message_length 1 WL_DISPLAY_GLOBAL tail
                (global_args gid name version) Htail) as Hlen.
  fold msg in Hlen.
  pose proof (uninitialized_length scratch_bytes) as HU.
  unfold scratch_words, scratch_bytes in *.
  unfold handle_event, wl_connection_copy. rewrite Nat2Z.id, Hpending.
  destruct (Nat.leb_spec (length msg) (length (msg ++ rest)))
    as [_ | Hlt]; [| rewrite length_app in Hlt; lia].
  cbn [bind].
  rewrite firstn_app, firstn_all, Nat.sub_diag, firstn_O, app_nil_r.
  change (write_bytes (uninitialized scratch_bytes) 0)
    with (write_bytes ([] ++ uninitialized scratch_bytes) (length (@nil byte))).
  rewrite write_bytes_app by (unfold scratch_bytes; lia).
  cbn [app in_array bind]. rewrite !Z.eqb_refl. cbn [andb].
  set (post := skipn _ (uninitialized scratch_bytes)).
  assert (Hdec : decode_args "usu" (msg ++ post) 2
                 = Some (map value_of (global_args gid name version),
                         (2 + payload_words (global_args gid name version))%nat)).
  { unfold msg, wire_message.
    rewrite (app_assoc (le_split 4 1)), <- (app_assoc _ _ post).
    apply decode_args_payload;
      [ reflexivity | exact Hr
      | now rewrite length_app, !length_le_split
      | exact Htail ]. }
  rewrite (handle_global_decodes _ _ _ gid name version _ Hmem Hdec).
  cbn [bind].
  assert (Ec : connection (record_global d
                  {| global_id := gid; global_interface := name;
                     global_version := version |}) = connection d).
  { unfold record_global. cbn [global_interface].
    destruct (strcmp name visual_name =? 0); reflexivity. }
  unfold with_mallocs at 2. cbn [connection]. rewrite Ec. reflexivity.
Qed.


(** The round trip through the source's own decoder: what the marshaller
    writes for a call of signature "usu" on object 1 with the GLOBAL opcode,
    [handle_event] reads back as the global of that id, name and version,
    the marshaller's unwritten padding bytes notwithstanding. *)
Lemma marshal_then_dispatch (sender receiver : wl_display) (target : wl_proxy)
    (gid : Z) (name : list byte) (version : Z) (rest : list byte) :
  (forall k : nat, malloc_ok k = true) ->
  method_signature target WL_DISPLAY_GLOBAL = Ret "usu"%string ->
  proxy_id target = 1 ->
  Forall representable (global_args gid name version) ->
  (message_words (global_args gid name version) <= scratch_words)%nat ->
  exists msg : list byte,
    wl_proxy_vmarshal sender target WL_DISPLAY_GLOBAL
      (global_args gid name version)
    = Ret (wl_display_write sender msg)
    /\ (pending (connection receiver) = msg ++ rest ->
        handle_event receiver 1 WL_DISPLAY_GLOBAL (Z.of_nat (length msg))
        = Ret (with_connection
                 (with_mallocs
                    (record_global receiver
                       {| global_id := gid; global_interface := name;
                          global_version := version |})
                    (mallocs receiver
                     + (if strcmp name visual_name =? 0 then 3 else 2)))
                 (wl_connection_consume (connection receiver) (length msg)))).
Proof.
  intros Hmem Hsig Hid Hr Hfit.
  exists (wire_message 1 WL_DISPLAY_GLOBAL
            (skipn 8 (uninitialized scratch_bytes))
            (global_args gid name version)).
  split.
  - rewrite <- Hid.
    now apply wl_proxy_vmarshal_fits with (signature := "usu"%string).
  - intros Hpending.
    apply handle_event_announce with (rest := rest); try assumption.
    rewrite length_skipn, uninitialized_length.
    unfold message_words, scratch_words, scratch_bytes in *. lia.
Qed.





(** ** One message through [handle_event] *)

(** A complete message that fits the buffer and is not the display's GLOBAL
    event is copied, handed to the registered handler, if there is one, with
    the bytes that follow its header, and consumed. *)
Lemma handle_event_routes (d : wl_display) (object opcode : Z)
    (message rest : list byte) :
  (8 <= length message <= scratch_bytes)%nat ->
  pending (connection d) = message ++ rest ->
  (object =? 1) && (opcode =? WL_DISPLAY_GLOBAL) = false ->
  handle_event d object opcode (Z.of_nat (length message))
  = Ret (let d' := match event_handler d with
                   | Some h =>
                       call_event_handler d
                         {| call_handler := h; call_object := object;
                            call_opcode := opcode;
                            call_size := Z.of_nat (length message);
                            call_payload := skipn 8 message |}
                   | None => d
                   end in
         with_connection d'
           (wl_connection_consume (connection d') (length message))).
Proof.
  intros Hlen Hpending Hroute.
  pose proof (uninitialized_length scratch_bytes) as HU.
  unfold handle_event, wl_connection_copy.
  rewrite Nat2Z.id, Hpending.
  destruct (Nat.leb_spec (length message) (length (message ++ rest)))
    as [_ | Hlt]; [| rewrite length_app in Hlt; lia].
  cbn [bind].
  rewrite firstn_app, firstn_all, Nat.sub_diag, firstn_O, app_nil_r.
  change (write_bytes (uninitialized scratch_bytes) 0)
    with (write_bytes ([] ++ uninitialized scratch_bytes) (length (@nil byte))).
  rewrite write_bytes_app by (rewrite HU; lia).
  cbn [app in_array bind]. rewrite Hroute.
  set (post := skipn _ (uninitialized scratch_bytes)).
  assert (Hpayload : firstn (length message - 8) (skipn 8 (message ++ post))
                     = skipn 8 message).
  { rewrite skipn_app.
    replace (8 - length message)%nat with 0%nat by lia.
    rewrite skipn_O, firstn_app, length_skipn, Nat.sub_diag, firstn_O,
      app_nil_r.
    apply firstn_all2. rewrite length_skipn. lia. }
  rewrite Hpayload.
  destruct (event_handler d); reflexivity.
Qed.



(** ** Session creation *)

(** C9, what the code does.  In every session [wl_display_create] returns,
    the display proxy carries id 0: the id is looked up under "display" in
    the registry that has just been initialised empty, so the lookup answers
    0, and the dispatch pass that follows never touches the proxy.  The
    reserved id 1, which [handle_event] tests for, is never assigned. *)
Theorem display_proxy_id (fuel : nat) (srv : server) (d : wl_display) :
  wl_display_create fuel srv = Ret (Some d) ->
  proxy_id (proxy d) = 0.
Proof.
  unfold wl_display_create. intros H.
  destruct (malloc_ok 0); cbn [negb] in H; [| discriminate].
  cbn [fd] in H.
  destruct (socket_result srv <? 0); [discriminate|].
  destruct (connect_result srv <? 0); [discriminate|].
  apply bind_ret_inv in H as (d1 & H1 & H). inversion H; subst; clear H.
  unfold wl_display_iterate in H1.
  apply bind_ret_inv in H1 as ([d2 len] & Hloop & H).
  destruct (len <? 0); [discriminate|]. inversion H; subst; clear H.
  apply iterate_loop_proxy in Hloop. rewrite Hloop. reflexivity.
Qed.

(** ** Messages larger than the buffers *)

Lemma write_bytes_inside (a : list byte) (off : nat) (bs : list byte) :
  (off + length bs <= length a)%nat ->
  exists a' : list byte,
    write_bytes a off bs = Some a' /\ length a' = length a.
Proof.
  intros H. unfold write_bytes.
  destruct (Nat.leb_spec (off + length bs) (length a)); [|lia].
  eexists; split; [reflexivity|].
  rewrite !length_app, length_firstn, length_skipn. lia.
Qed.

Lemma store_word_cases (a : list byte) (p : nat) (v : Z) :
  length a = scratch_bytes ->
  (scratch_words <= p /\ store_word a p v = None)%nat
  \/ (p < scratch_words)%nat
     /\ exists a' : list byte,
          store_word a p v = Some a' /\ length a' = scratch_bytes.
Proof.
  intros Ha. unfold store_word, scratch_words, scratch_bytes in *.
  destruct (Nat.le_gt_cases 32 p) as [H | H].
  - left. split; [exact H|]. apply write_bytes_outside.
    rewrite length_le_split. lia.
  - right. split; [exact H|].
    destruct (write_bytes_inside a (4 * p) (le_split 4 v)) as (a' & E & L);
      [rewrite length_le_split; lia|].
    exists a'. split; [exact E | lia].
Qed.

(** No bound is checked while the fields are laid out: when they do not fit,
    the loop runs into a store outside [args]. *)
Lemma vmarshal_loop_overflow (signature : string) :
  forall (ap : list arg) (args : list byte) (p : nat),
    args_match signature ap = true ->
    length args = scratch_bytes ->
    (p <= scratch_words < p + payload_words ap)%nat ->
    vmarshal_loop signature ap args p = Undefined OutOfBounds.
Proof.
  induction signature as [|c rest IH]; intros ap args p Hm Hlen Hover.
  - destruct ap; [|discriminate]. cbn [payload_words fold_right] in Hover. lia.
  - destruct ap as [|a ap]; [discriminate|].
    cbn [args_match] in Hm. apply andb_true_iff in Hm as [Hc Hm].
    cbn [payload_words fold_right] in Hover. fold (payload_words ap) in Hover.
    destruct a as [v | s | q].
    + rewrite arg_matches_uint by assumption. cbn [field_words] in Hover.
      destruct (store_word_cases args p v Hlen) as [[_ ->] | (Hp & a' & -> & La)];
        [reflexivity|].
      cbn [in_array bind]. apply IH; [assumption | assumption | lia].
    + rewrite arg_matches_string by assumption. cbn [field_words] in Hover.
      destruct (store_word_cases args p (string_length s) Hlen)
        as [[_ ->] | (Hp & a' & -> & La)]; [reflexivity|].
      cbn [in_array bind].
      pose proof (padding_spec s) as [Hpad Hpad4].
      pose proof (string_copy_length s) as Hcopy.
      unfold scratch_words, scratch_bytes in *.
      destruct (Nat.le_gt_cases (4 * S p + Z.to_nat (string_length s)) 128)
        as [Hin | Hout].
      * destruct (write_bytes_inside a' (4 * S p)
                    (firstn (Z.to_nat (string_length s)) s))
          as (a'' & -> & La''); [rewrite Hcopy; lia|].
        cbn [in_array bind]. apply IH; [assumption | lia | lia].
      * rewrite write_bytes_outside by (rewrite Hcopy; lia). reflexivity.
    + rewrite arg_matches_proxy by assumption. cbn [field_words] in Hover.
      destruct (store_word_cases args p (proxy_id q) Hlen)
        as [[_ ->] | (Hp & a' & -> & La)]; [reflexivity|].
      cbn [in_array bind]. apply IH; [assumption | assumption | lia].
Qed.

(** C2, what the code does.  A call whose arguments match the signature and
    whose message takes more than the 32 words of [args] is not rejected:
    nothing compares the write position with the end of the array, and the
    run reaches a store outside it, which C leaves undefined, where the
    specification asks for a fatal failure before any write. *)
Theorem marshal_overflow_unguarded (d : wl_display) (target : wl_proxy)
    (opcode : Z) (signature : string) (ap : list arg) :
  method_signature target opcode = Ret signature ->
  args_match signature ap = true ->
  (scratch_words < message_words ap)%nat ->
  wl_proxy_vmarshal d target opcode ap = Undefined OutOfBounds.
Proof.
  intros Hsig Hm Hover. unfold wl_proxy_vmarshal. rewrite Hsig. cbn [bind].
  rewrite vmarshal_loop_overflow; [reflexivity | assumption | |].
  - apply uninitialized_length.
  - unfold message_words, scratch_words in *. lia.
Qed.

(** Neither [handle_global] nor [handle_event] has a branch that ends the
    process. *)
Lemma handle_global_never_fatal (d : wl_display) (p : list byte * nat)
    (size : Z) (why : fatal) :
  handle_global d p size <> Fatal why.
Proof.
  unfold handle_global. destruct p as [buf base].
  destruct (malloc d) as [ok d1]. destruct ok; cbn [negb]; [|discriminate].
  destruct (load_word buf base); cbn [in_array bind]; [|discriminate].
  destruct (load_word buf (base + 1)); cbn [in_array bind]; [|discriminate].
  destruct (malloc d1) as [ok d2]. destruct ok; cbn [negb]; [|discriminate].
  destruct (read_bytes buf _ _); cbn [in_array bind]; [|discriminate].
  destruct (load_word buf _); cbn [in_array bind]; [|discriminate].
  destruct (_ =? 0); discriminate.
Qed.

Lemma handle_event_never_fatal (d : wl_display) (object opcode size : Z)
    (why : fatal) :
  handle_event d object opcode size <> Fatal why.
Proof.
  unfold handle_event, wl_connection_copy.
  destruct (_ <=? _)%nat; cbn [bind]; [|discriminate].
  destruct (write_bytes _ _ _) as [p|]; cbn [in_array bind]; [|discriminate].
  destruct ((object =? 1) && (opcode =? WL_DISPLAY_GLOBAL)).
  - pose proof (handle_global_never_fatal d (p, 2%nat) size) as H.
    destruct (handle_global d (p, 2%nat) size); cbn [bind]; try discriminate.
    intros E. inversion E; subst. now apply (H why).
  - destruct (event_handler d); discriminate.
Qed.

(** C3, what the code does.  [handle_event] copies [size] bytes into its 32
    words whatever [size] is, and no branch of it ends the process: for a
    complete message that declares more than 128 bytes the copy is a store
    outside [p], which C leaves undefined, where the specification asks for a
    fatal protocol error; a message of at most 128 bytes is copied inside the
    array. *)
Theorem oversize_event_unguarded (d : wl_display) (object opcode size : Z) :
  (Z.to_nat size <= length (pending (connection d)))%nat ->
  (forall why : fatal, handle_event d object opcode size <> Fatal why)
  /\ (Z.of_nat scratch_bytes < size ->
      handle_event d object opcode size = Undefined OutOfBounds)
  /\ (size <= Z.of_nat scratch_bytes ->
      exists p : list byte,
        write_bytes (uninitialized scratch_bytes) 0
          (firstn (Z.to_nat size) (pending (connection d))) = Some p
        /\ length p = scratch_bytes).
Proof.
  intros Hpending. unfold scratch_bytes.
  split; [intros why; apply handle_event_never_fatal|].
  split; intros Hsize.
  - unfold handle_event, wl_connection_copy.
    destruct (Nat.leb_spec (Z.to_nat size) (length (pending (connection d))));
      [|lia].
    cbn [bind]. rewrite write_bytes_outside; [reflexivity|].
    rewrite uninitialized_length, length_firstn. unfold scratch_bytes. lia.
  - destruct (write_bytes_inside (uninitialized 128) 0
                (firstn (Z.to_nat size) (pending (connection d))))
      as (p & E & L).
    + rewrite uninitialized_length, length_firstn. lia.
    + exists p. split; [exact E|]. now rewrite L, uninitialized_length.
Qed.

(** * Further properties of the code *)

(** ** Names are compared as C strings *)

Lemma is_nul_spec (b : byte) : is_nul b = true <-> byte.unsigned b = 0.
Proof.
  unfold is_nul. split.
  - intros H. apply Byte.byte_dec_bl in H. now subst.
  - intros H. apply Byte.byte_dec_lb. apply byte.unsigned_inj. exact H.
Qed.

Lemma c_str_no_nul (s : list byte) :
  Forall (fun b => is_nul b = false) (c_str s).
Proof.
  induction s as [|b r IH]; cbn [c_str]; [constructor|].
  destruct (is_nul b) eqn:E; constructor; assumption.
Qed.

Lemma strcmp_chars_zero (a : list byte) :
  forall b : list byte,
    Forall (fun x => is_nul x = false) a ->
    Forall (fun x => is_nul x = false) b ->
    (strcmp_chars a b = 0 <-> a = b).
Proof.
  assert (Hnz : forall x, is_nul x = false -> byte.unsigned x <> 0).
  { intros x Hx E. apply is_nul_spec in E. congruence. }
  induction a as [|x a IH]; intros [|y b] Ha Hb; cbn [strcmp_chars].
  - tauto.
  - inversion Hb; subst. apply Hnz in H1. split; [lia | discriminate].
  - inversion Ha; subst. apply Hnz in H1. split; [lia | discriminate].
  - inversion Ha; inversion Hb; subst.
    destruct (Byte.eqb x y) eqn:E.
    + apply Byte.byte_dec_bl in E. subst y.
      rewrite IH by assumption. split; [congruence | now inversion 1].
    + split.
      * intros D. assert (x = y) by (apply byte.unsigned_inj; lia). subst.
        rewrite (Byte.byte_dec_lb eq_refl) in E. discriminate.
      * intros D. inversion D; subst.
        rewrite (Byte.byte_dec_lb eq_refl) in E. discriminate.
Qed.

Lemma strcmp_zero (a b : list byte) : strcmp a b = 0 <-> c_str a = c_str b.
Proof. unfold strcmp. apply strcmp_chars_zero; apply c_str_no_nul. Qed.

(** X1.  [wl_display_get_object_id] answers with the id of the first recorded
    global whose name and the queried name agree as C strings, that is up to
    their first zero byte, whatever globals of that name follow; it answers 0
    when no recorded name agrees. *)
Theorem lookup_first_match (d : wl_display) (name : list byte) :
  (wl_display_get_object_id d name = 0
   /\ forall g, In g (global_list d) ->
                c_str (global_interface g) <> c_str name)
  \/ exists (before : list wl_global) (g : wl_global) (after : list wl_global),
       global_list d = before ++ g :: after
       /\ (forall b, In b before -> c_str (global_interface b) <> c_str name)
       /\ c_str (global_interface g) = c_str name
       /\ wl_display_get_object_id d name = global_id g.
Proof.
  unfold wl_display_get_object_id.
  induction (global_list d) as [|g globals IH].
  - left. split; [reflexivity | intros g []].
  - cbn [get_object_id_scan].
    destruct (Z.eqb_spec (strcmp (global_interface g) name) 0) as [E | E].
    + right. exists [], g, globals. apply strcmp_zero in E.
      repeat split; try assumption; try reflexivity. intros b [].
    + assert (Hg : c_str (global_interface g) <> c_str name)
        by (intros C; apply E, strcmp_zero, C).
      destruct IH as [[Hz Hall] | (before & g' & after & -> & Hb & Hg' & Hid)].
      * left. split; [exact Hz|]. intros g' [<- | Hin]; auto.
      * right. exists (g :: before), g', after.
        repeat split; try assumption; try reflexivity.
        intros b [<- | Hin]; auto.
Qed.

(** X2.  With every allocation granted, a returning [handle_global] has
    appended exactly one global, and has appended a visual of the same id
    exactly when the global's name, read as a C string, is "visual"; bytes
    behind a zero byte in the name play no part. *)
Theorem handle_global_records (d d' : wl_display) (buf : list byte)
    (base : nat) (size : Z) :
  (forall k : nat, malloc_ok k = true) ->
  handle_global d (buf, base) size = Ret d' ->
  exists g : wl_global,
    global_list d' = global_list d ++ [g]
    /\ load_word buf base = Some (global_id g)
    /\ ((c_str (global_interface g) = visual_name
         /\ visual_list d'
            = visual_list d
                ++ [{| visual_proxy := {| interface := None;
                                          proxy_id := global_id g |} |}])
        \/ (c_str (global_interface g) <> visual_name
            /\ visual_list d' = visual_list d)).
Proof.
  intros Hmem H. unfold handle_global, malloc in H.
  cbn [with_mallocs mallocs] in H. rewrite !Hmem in H. cbn [negb] in H.
  apply bind_ret_inv in H as (gid & Hgid & H).
  apply bind_ret_inv in H as (len & Hlen & H).
  apply bind_ret_inv in H as (name & Hname & H).
  apply bind_ret_inv in H as (version & Hver & H).
  apply in_array_ret_inv in Hgid.
  cbn [global_interface] in H.
  exists {| global_id := gid; global_interface := name;
            global_version := version |}.
  cbn [global_id global_interface].
  destruct (Z.eqb_spec (strcmp name visual_name) 0) as [E | E];
    inversion H; subst; clear H.
  - unfold add_visual, malloc. cbn [with_mallocs mallocs with_global_list].
    rewrite Hmem. cbn.
    split; [reflexivity|]. split; [exact Hgid|]. left.
    split; [| reflexivity]. apply strcmp_zero in E. exact E.
  - cbn. split; [reflexivity|]. split; [exact Hgid|]. right.
    split; [| reflexivity]. intros C. apply E. apply strcmp_zero. exact C.
Qed.

(** ** What a dispatch pass may change *)

Lemma run_handler_written (actions : list handler_action) :
  forall d : wl_display,
    exists bufs : list (list byte),
      written (connection (fold_left run_handler_action actions d))
      = written (connection d) ++ bufs.
Proof.
  induction actions as [|a actions IH]; intros d; cbn [fold_left].
  - exists []. now rewrite app_nil_r.
  - destruct (IH (run_handler_action d a)) as [bufs E]. rewrite E.
    destruct a; cbn; eauto.
    exists ([data] ++ bufs). now rewrite app_assoc.
Qed.

Lemma session_grows_refl (d : wl_display) : session_grows d d.
Proof.
  unfold session_grows. repeat split; try reflexivity.
  - exists 0%nat. reflexivity.
  - exists []. now rewrite app_nil_r.
  - exists []. now rewrite app_nil_r.
  - exists []. now rewrite app_nil_r.
  - exists []. now rewrite app_nil_r.
Qed.

Lemma session_grows_trans (d1 d2 d3 : wl_display) :
  session_grows d1 d2 -> session_grows d2 d3 -> session_grows d1 d3.
Proof.
  intros (P1 & F1 & [n1 N1] & [g1 G1] & [v1 V1] & [c1 C1] & [w1 W1])
         (P2 & F2 & [n2 N2] & [g2 G2] & [v2 V2] & [c2 C2] & [w2 W2]).
  unfold session_grows. repeat split; try congruence.
  - exists (n2 + n1)%nat. now rewrite N2, N1, skipn_skipn.
  - exists (g1 ++ g2). now rewrite G2, G1, app_assoc.
  - exists (v1 ++ v2). now rewrite V2, V1, app_assoc.
  - exists (c1 ++ c2). now rewrite C2, C1, app_assoc.
  - exists (w1 ++ w2). now rewrite W2, W1, app_assoc.
Qed.

Lemma call_event_handler_grows (d : wl_display) (call : handler_call) :
  session_grows d (call_event_handler d call).
Proof.
  destruct (call_event_handler_keeps d call) as (K1 & K2 & K3 & K4 & K5 & K6).
  unfold session_grows. rewrite K1, K2, K3, K4, K5, K6.
  repeat split.
  - exists 0%nat. reflexivity.
  - exists []. now rewrite app_nil_r.
  - exists []. now rewrite app_nil_r.
  - eexists. reflexivity.
  - unfold call_event_handler.
    destruct (run_handler_written
                (handler_body (call_handler call) call
                   (with_delivered d (delivered d ++ [call])))
                (with_delivered d (delivered d ++ [call]))) as [bufs E].
    exists bufs. exact E.
Qed.

Lemma handle_event_grows (d d' : wl_display) (object opcode size : Z) :
  handle_event d object opcode size = Ret d' -> session_grows d d'.
Proof.
  unfold handle_event. intros H.
  apply bind_ret_inv in H as (bytes & _ & H).
  apply bind_ret_inv in H as (p & _ & H).
  apply bind_ret_inv in H as (d1 & H1 & H).
  inversion H; subst; clear H.
  assert (G : session_grows d d1).
  { destruct ((object =? 1) && (opcode =? WL_DISPLAY_GLOBAL)).
    - apply handle_global_ret in H1
        as (Hp & Hc & Hi & Hh & Hd & [[Hg Hv] | (gid & len & nm & ver & _ & _ & _
                                                 & _ & Hg & Hv)]).
      + unfold session_grows. rewrite Hp, Hc, Hd, Hg, Hv.
        apply session_grows_refl.
      + unfold session_grows. rewrite Hp, Hc, Hd, Hg.
        repeat split; try reflexivity.
        * exists 0%nat. reflexivity.
        * eexists. reflexivity.
        * destruct Hv as [-> | [_ ->]];
            [exists []; now rewrite app_nil_r | eexists; reflexivity].
        * exists []. now rewrite app_nil_r.
        * exists []. now rewrite app_nil_r.
    - destruct (event_handler d); inversion H1; subst; clear H1.
      + apply call_event_handler_grows.
      + apply session_grows_refl. }
  apply (session_grows_trans d d1); [exact G|].
  unfold session_grows. cbn. repeat split; try reflexivity.
  - exists (Z.to_nat size). reflexivity.
  - exists []. now rewrite app_nil_r.
  - exists []. now rewrite app_nil_r.
  - exists []. now rewrite app_nil_r.
  - exists []. now rewrite app_nil_r.
Qed.

Lemma iterate_loop_grows (fuel : nat) :
  forall (d d' : wl_display) (len len' : Z),
    iterate_loop fuel d len = Ret (d', len') -> session_grows d d'.
Proof.
  induction fuel as [|fuel IH]; intros d d' len len' H;
    rewrite iterate_loop_unfold in H;
    destruct (len >? 0); try (inversion H; apply session_grows_refl);
    destruct (len <? 8); try (inversion H; apply session_grows_refl);
    apply bind_ret_inv in H as (bytes & _ & H);
    apply bind_ret_inv in H as (p & _ & H);
    apply bind_ret_inv in H as ([[object opcode] size] & _ & H);
    destruct (len <? size); try (inversion H; apply session_grows_refl);
    try discriminate.
  apply bind_ret_inv in H as (d1 & H1 & H).
  apply handle_event_grows in H1. apply IH in H.
  now apply (session_grows_trans d d1).
Qed.

Lemma wl_display_iterate_grows (fuel : nat) (d d' : wl_display) (mask : Z) :
  wl_display_iterate fuel d mask = Ret d' -> session_grows d d'.
Proof.
  unfold wl_display_iterate. intros H.
  apply bind_ret_inv in H as ([d1 len] & H1 & H).
  destruct (len <? 0); [discriminate|]. inversion H; subst.
  now apply iterate_loop_grows in H1.
Qed.

(** With no handler registered no handler is called. *)
Lemma handle_event_without_handler (d d' : wl_display) (object opcode size : Z) :
  event_handler d = None ->
  handle_event d object opcode size = Ret d' ->
  undisturbed d d'.
Proof.
  unfold handle_event, undisturbed. intros Hnone H.
  apply bind_ret_inv in H as (bytes & _ & H).
  apply bind_ret_inv in H as (p & _ & H).
  apply bind_ret_inv in H as (d1 & H1 & H).
  inversion H; subst; clear H.
  cbn [id event_handler delivered connection written with_connection
       wl_connection_consume].
  destruct ((object =? 1) && (opcode =? WL_DISPLAY_GLOBAL)).
  - apply handle_global_ret in H1 as (_ & Hc & Hi & Hh & Hd & _).
    now rewrite Hc, Hi, Hh, Hd.
  - rewrite Hnone in H1. inversion H1; subst. auto.
Qed.

Lemma iterate_loop_without_handler (fuel : nat) :
  forall (d d' : wl_display) (len len' : Z),
    event_handler d = None ->
    iterate_loop fuel d len = Ret (d', len') ->
    undisturbed d d'.
Proof.
  unfold undisturbed.
  induction fuel as [|fuel IH]; intros d d' len len' Hnone H;
    rewrite iterate_loop_unfold in H;
    destruct (len >? 0); try solve [inversion H; subst; auto];
    destruct (len <? 8); try solve [inversion H; subst; auto];
    apply bind_ret_inv in H as (bytes & _ & H);
    apply bind_ret_inv in H as (p & _ & H);
    apply bind_ret_inv in H as ([[object opcode] size] & _ & H);
    destruct (len <? size); try solve [inversion H; subst; auto];
    try discriminate.
  apply bind_ret_inv in H as (d1 & H1 & H).
  destruct (handle_event_without_handler d d1 _ _ _ Hnone H1)
    as (Hi & Hh & Hw & Hd).
  apply IH in H; [| congruence].
  destruct H as (Hi' & Hh' & Hw' & Hd'). repeat split; congruence.
Qed.




(** ** Visuals and the globals they come from *)

Lemma visuals_recorded_event (d d' : wl_display) (object opcode size : Z) :
  visuals_recorded d ->
  handle_event d object opcode size = Ret d' ->
  visuals_recorded d'.
Proof.
  unfold handle_event. intros Hinv H.
  apply bind_ret_inv in H as (bytes & _ & H).
  apply bind_ret_inv in H as (p & _ & H).
  apply bind_ret_inv in H as (d1 & H1 & H).
  inversion H; subst; clear H.
  unfold visuals_recorded in *. cbn [global_list visual_list with_connection].
  destruct ((object =? 1) && (opcode =? WL_DISPLAY_GLOBAL)).
  - apply handle_global_ret in H1
      as (_ & _ & _ & _ & _ & [[-> ->] | (gid & len & nm & ver & _ & _ & _
                                          & _ & -> & Hv)]); [exact Hinv|].
    assert (Hold : Forall
              (fun v : wl_visual =>
                 exists g : wl_global,
                   In g (global_list d
                           ++ [{| global_id := gid; global_interface := nm;
                                  global_version := ver |}])
                   /\ global_id g = proxy_id (visual_proxy v)
                   /\ c_str (global_interface g) = visual_name)
              (visual_list d)).
    { eapply Forall_impl; [| exact Hinv].
      intros v (g & Hin & Hid & Hn). exists g.
      split; [apply in_or_app; now left | now split]. }
    destruct Hv as [-> | [E ->]]; [exact Hold|].
    apply Forall_app. split; [exact Hold|].
    constructor; [| constructor].
    eexists. split; [apply in_or_app; right; left; reflexivity|].
    split; [reflexivity|]. cbn. apply strcmp_zero in E. exact E.
  - destruct (event_handler d) as [h|]; inversion H1; subst; [| exact Hinv].
    match goal with
    | |- context [call_event_handler d ?c] =>
        destruct (call_event_handler_keeps d c) as (_ & _ & _ & K4 & K5 & _)
    end.
    rewrite ?K4, K5. exact Hinv.
Qed.

Lemma visuals_recorded_loop (fuel : nat) :
  forall (d d' : wl_display) (len len' : Z),
    visuals_recorded d ->
    iterate_loop fuel d len = Ret (d', len') -> visuals_recorded d'.
Proof.
  induction fuel as [|fuel IH]; intros d d' len len' Hinv H;
    rewrite iterate_loop_unfold in H;
    destruct (len >? 0); try (inversion H; subst; exact Hinv);
    destruct (len <? 8); try (inversion H; subst; exact Hinv);
    apply bind_ret_inv in H as (bytes & _ & H);
    apply bind_ret_inv in H as (p & _ & H);
    apply bind_ret_inv in H as ([[object opcode] size] & _ & H);
    destruct (len <? size); try (inversion H; subst; exact Hinv);
    try discriminate.
  apply bind_ret_inv in H as (d1 & H1 & H).
  apply (visuals_recorded_event d d1) in H1; [| exact Hinv].
  now apply IH in H.
Qed.

(** X4.  Dispatching keeps the visuals tied to the registry: if every visual
    carries the id of a recorded global named "visual" before a pass, the same
    holds after it, whichever allocations fail on the way. *)
Theorem dispatch_keeps_visuals_recorded (fuel : nat) (d d' : wl_display)
    (mask : Z) :
  visuals_recorded d ->
  wl_display_iterate fuel d mask = Ret d' ->
  visuals_recorded d'.
Proof.
  unfold wl_display_iterate. intros Hinv H.
  apply bind_ret_inv in H as ([d1 len] & H1 & H).
  destruct (len <? 0); [discriminate|]. inversion H; subst.
  now apply visuals_recorded_loop in H1.
Qed.

(** ** Events delivered to the handler *)

Lemma event_message_length (e : event) :
  Z.of_nat (length (event_message e)) = event_size e.
Proof.
  unfold event_message, event_size.
  rewrite !length_app, !length_le_split. lia.
Qed.

Lemma event_message_header (e : event) (rest : list byte) :
  deliverable e ->
  unpack_header (firstn 8 (event_message e ++ rest))
  = Ret (event_object e, event_opcode e, event_size e).
Proof.
  intros (Ho & Hop & Hs & _). unfold event_message.
  rewrite (app_assoc (le_split 4 _)), <- app_assoc.
  rewrite firstn_app, firstn_all2
    by (rewrite length_app, !length_le_split; lia).
  rewrite length_app, !length_le_split. cbn [Nat.add Nat.sub firstn].
  rewrite <- app_assoc.
  apply unpack_header_packed; try assumption.
  unfold event_size, scratch_bytes in *. lia.
Qed.

Lemma run_handler_registration (actions : list handler_action) :
  forall d : wl_display,
    forallb sets_no_handler actions = true ->
    event_handler (fold_left run_handler_action actions d) = event_handler d.
Proof.
  induction actions as [|a actions IH]; intros d H; cbn [fold_left];
    [reflexivity|].
  cbn [forallb] in H. apply andb_true_iff in H as [Ha H].
  rewrite (IH _ H). destruct a; [reflexivity | reflexivity | discriminate
                                 | reflexivity].
Qed.

Lemma call_event_handler_registration (d : wl_display) (call : handler_call) :
  keeps_registration (call_handler call) ->
  event_handler (call_event_handler d call) = event_handler d.
Proof.
  intros Hk. unfold call_event_handler.
  now rewrite run_handler_registration by apply Hk.
Qed.

(** One event that fits the buffer is copied, handed to the handler with
    exactly its payload when one is registered, and consumed. *)
Lemma handle_event_deliver (d : wl_display) (e : event) (rest : list byte) :
  deliverable e ->
  pending (connection d) = event_message e ++ rest ->
  exists d1 : wl_display,
    handle_event d (event_object e) (event_opcode e) (event_size e) = Ret d1
    /\ failed (connection d1) = failed (connection d)
    /\ pending (connection d1) = rest
    /\ global_list d1 = global_list d
    /\ visual_list d1 = visual_list d
    /\ delivered d1 = delivered d ++ calls_of (event_handler d) [e]
    /\ (event_handler d = None -> undisturbed d d1)
    /\ (forall h : Z, event_handler d = Some h -> keeps_registration h ->
                      event_handler d1 = Some h)
    /\ (forall h : Z, event_handler d = Some h ->
                      event_handler d1
                      = event_handler (call_event_handler d (call_of h e))).
Proof.
  intros (Ho & Hop & Hs & Hroute) Hpending.
  pose proof (event_message_length e) as Hlen.
  assert (Hbounds : (8 <= length (event_message e) <= scratch_bytes)%nat).
  { unfold event_size in *. lia. }
  pose proof (handle_event_routes d (event_object e) (event_opcode e)
                (event_message e) rest Hbounds Hpending Hroute) as He.
  rewrite Hlen in He.
  assert (Hpayload : skipn 8 (event_message e) = event_payload e).
  { unfold event_message. rewrite (app_assoc (le_split 4 _)).
    rewrite skipn_app, skipn_all2
      by (rewrite length_app, !length_le_split; lia).
    rewrite length_app, !length_le_split. reflexivity. }
  rewrite Hpayload in He.
  assert (Hrest : skipn (length (event_message e)) (event_message e ++ rest)
                  = rest).
  { rewrite skipn_app, skipn_all, Nat.sub_diag, skipn_O. reflexivity. }
  eexists. split; [exact He|]. cbn zeta.
  cbn [connection with_connection wl_connection_consume failed pending
       global_list visual_list delivered].
  destruct (event_handler d) as [h|] eqn:Hh.
  - fold (call_of h e).
    destruct (call_event_handler_keeps d (call_of h e))
      as (_ & K2 & K3 & K4 & K5 & K6).
    rewrite K2, K3, K4, K5, K6, Hpending, Hrest.
    do 5 (split; [reflexivity|]). split; [discriminate|]. split.
    + intros h' E Hk. inversion E; subst h'.
      cbn [event_handler with_connection].
      now rewrite call_event_handler_registration by exact Hk.
    + intros h' E. inversion E; subst h'. reflexivity.
  - rewrite Hpending, Hrest. cbn [calls_of]. rewrite app_nil_r.
    do 5 (split; [reflexivity|]).
    split; [intros _; unfold undisturbed; auto|].
    split; discriminate.
Qed.

Lemma undisturbed_trans (d1 d2 d3 : wl_display) :
  undisturbed d1 d2 -> undisturbed d2 d3 -> undisturbed d1 d3.
Proof.
  unfold undisturbed. intros (A1 & A2 & A3 & A4) (B1 & B2 & B3 & B4).
  repeat split; congruence.
Qed.

(** A pass over a run of such events handles them one after the other and
    goes on with what follows them.  Each event leads to at most one call,
    to the handler registered when the event is reached. *)
Lemma wl_display_iterate_events (fuel : nat) (mask : Z) (es : list event) :
  forall (d : wl_display) (rest : list byte),
    Forall deliverable es ->
    failed (connection d) = false ->
    pending (connection d) = concat (map event_message es) ++ rest ->
    exists (d' : wl_display) (hs : list (option Z)),
      wl_display_iterate (length es + fuel) d mask
      = wl_display_iterate fuel d' mask
      /\ failed (connection d') = false
      /\ pending (connection d') = rest
      /\ global_list d' = global_list d
      /\ visual_list d' = visual_list d
      /\ length hs = length es
      /\ delivered d' = delivered d ++ calls_with hs es
      /\ (event_handler d = None -> undisturbed d d')
      /\ (forall h : Z, event_handler d = Some h -> keeps_registration h ->
                        event_handler d' = Some h
                        /\ delivered d' = delivered d ++ map (call_of h) es).
Proof.
  induction es as [|e es IH]; intros d rest Hes Hok Hpending.
  - cbn [concat map app length Nat.add] in *.
    exists d, []. rewrite app_nil_r.
    repeat split; try assumption; try reflexivity.
    cbn. now rewrite app_nil_r.
  - inversion Hes as [|? ? He Hes']; subst.
    cbn [concat map length Nat.add] in *. rewrite <- app_assoc in Hpending.
    pose proof (event_message_length e) as Hlen.
    destruct (handle_event_deliver d e _ He Hpending)
      as (d1 & Hrun & Hf1 & Hp1 & Hg1 & Hv1 & Hd1 & Hnone1 & Hsome1 & _).
    destruct He as (Ho & Hop & Hs & Hroute).
    rewrite Hok in Hf1.
    destruct (IH d1 rest Hes' Hf1 Hp1)
      as (d' & hs & Hpass & Hf & Hp & Hg & Hv & Hl & Hd & Hnone & Hsome).
    exists d', (event_handler d :: hs).
    rewrite (wl_display_iterate_step (length es + fuel) d mask
               (event_object e) (event_opcode e) (event_size e));
      [ | exact Hok
        | rewrite Hpending, length_app; unfold event_size in Hlen; lia
        | rewrite Hpending;
          apply event_message_header;
          exact (conj Ho (conj Hop (conj Hs Hroute)))
        | rewrite Hpending, length_app; unfold event_size in *; lia ].
    rewrite Hrun. cbn [bind].
    split; [exact Hpass|]. split; [exact Hf|]. split; [exact Hp|].
    split; [congruence|]. split; [congruence|].
    split; [cbn [length]; now rewrite Hl|].
    split; [cbn [calls_with]; rewrite Hd, Hd1; now rewrite app_assoc|].
    split.
    + intros E. pose proof (Hnone1 E) as U1.
      apply (undisturbed_trans d d1); [exact U1|].
      apply Hnone. destruct U1 as (_ & U & _). congruence.
    + intros h E Hk. pose proof (Hsome1 h E Hk) as E1.
      destruct (Hsome h E1 Hk) as (Hh' & Hd').
      split; [exact Hh'|].
      rewrite Hd', Hd1, E. cbn [calls_of map]. now rewrite <- app_assoc.
Qed.


(** X6.  With no handler registered, complete events other than the
    display's GLOBAL event that each fit the 128 bytes of [handle_event]'s
    buffer are consumed all the same and no call is made: they are dropped,
    and the id counter and the written buffers are as before. *)
Theorem events_dropped_without_handler (d : wl_display) (mask : Z)
    (es : list event) (rest : list byte) :
  Forall deliverable es ->
  failed (connection d) = false ->
  event_handler d = None ->
  pending (connection d) = concat (map event_message es) ++ rest ->
  (length rest < 8)%nat ->
  exists d' : wl_display,
    wl_display_iterate (length es) d mask = Ret d'
    /\ delivered d' = delivered d
    /\ pending (connection d') = rest
    /\ global_list d' = global_list d
    /\ visual_list d' = visual_list d
    /\ undisturbed d d'.
Proof.
  intros Hes Hok Hh Hpending Hrest.
  destruct (wl_display_iterate_events 0 mask es d rest Hes Hok Hpending)
    as (d' & hs & Hpass & Hf & Hp & Hg & Hv & _ & _ & Hnone & _).
  pose proof (Hnone Hh) as U.
  exists d'. rewrite Nat.add_0_r in Hpass. rewrite Hpass.
  split; [apply wl_display_iterate_short; [exact Hf | now rewrite Hp]|].
  destruct U as (U1 & U2 & U3 & U4).
  repeat split; assumption.
Qed.

(** ** A pass that cannot end *)

Lemma zero_size_loop (fuel : nat) (object opcode : Z) (buffered : list byte) :
  (8 <= length buffered)%nat ->
  unpack_header (firstn 8 buffered) = Ret (object, opcode, 0) ->
  forall d : wl_display,
    pending (connection d) = buffered ->
    iterate_loop fuel d (Z.of_nat (length buffered)) = OutOfFuel
    \/ exists why, iterate_loop fuel d (Z.of_nat (length buffered))
                   = Undefined why.
Proof.
  intros Hlen Hheader.
  induction fuel as [|fuel IH]; intros d Hpending;
    rewrite iterate_loop_header by (rewrite ?Hpending; lia);
    rewrite Hpending, Hheader; cbn [bind];
    (destruct (Z.ltb_spec (Z.of_nat (length buffered)) 0); [lia|]).
  - now left.
  - destruct (handle_event d object opcode 0) as [d1|w|w|] eqn:He; cbn [bind].
    + rewrite Z.sub_0_r. apply IH.
      apply handle_event_ret in He as (_ & _ & Hc).
      rewrite Hc. cbn. exact Hpending.
    + exfalso. now apply (handle_event_never_fatal d object opcode 0 w).
    + right. now exists w.
    + now left.
Qed.

(** X7.  A complete header that declares size 0 stops the loop from
    advancing: [handle_event] consumes nothing and [len] stays as it is, so
    however many rounds the pass is given it neither returns nor exits. *)
Theorem zero_size_header_never_returns (fuel : nat) (d : wl_display)
    (mask object opcode : Z) :
  failed (connection d) = false ->
  (8 <= length (pending (connection d)))%nat ->
  unpack_header (firstn 8 (pending (connection d))) = Ret (object, opcode, 0) ->
  wl_display_iterate fuel d mask = OutOfFuel
  \/ exists why, wl_display_iterate fuel d mask = Undefined why.
Proof.
  intros Hok Hlen Hheader. unfold wl_display_iterate, wl_connection_data.
  rewrite Hok.
  destruct (zero_size_loop fuel object opcode (pending (connection d))
              Hlen Hheader d eq_refl) as [-> | [w ->]]; cbn [bind].
  - now left.
  - right. now exists w.
Qed.

(** X8.  The edges of a pass: a transport that reports an error ends the
    process with [exit(EXIT_FAILURE)], whatever is pending; without an error,
    fewer than 8 pending bytes are left where they are and nothing else
    changes. *)
Theorem dispatch_pass_edges (fuel : nat) (d : wl_display) (mask : Z) :
  (failed (connection d) = true ->
   wl_display_iterate fuel d mask = Fatal ExitFailure)
  /\ (failed (connection d) = false ->
      (length (pending (connection d)) < 8)%nat ->
      wl_display_iterate fuel d mask = Ret d).
Proof.
  split.
  - intros Hfail. unfold wl_display_iterate, wl_connection_data.
    rewrite Hfail, iterate_loop_unfold. reflexivity.
  - apply wl_display_iterate_short.
Qed.

(** ** What a call can do *)

(** The five ways a step of the marshalling loop can go, by the signature
    character. *)
Lemma vmarshal_loop_cases (c : ascii) (rest : string) (ap : list arg)
    (args : list byte) (p : nat) :
  vmarshal_loop (String c rest) ap args p = Ret (args, p)
  \/ vmarshal_loop (String c rest) ap args p
     = match ap with
       | arg_uint v :: ap =>
           args <- in_array (store_word args p v) ;;
           vmarshal_loop rest ap args (S p)
       | _ => Undefined BadVarArg
       end
  \/ vmarshal_loop (String c rest) ap args p
     = match ap with
       | arg_string s :: ap =>
           args <- in_array (store_word args p (string_length s)) ;;
           args <- in_array
             (write_bytes args (4 * S p)
                (firstn (Z.to_nat (string_length s)) s)) ;;
           vmarshal_loop rest ap args
             (S p + Z.to_nat (DIV_ROUNDUP (string_length s) 4))
       | _ => Undefined BadVarArg
       end
  \/ vmarshal_loop (String c rest) ap args p
     = match ap with
       | arg_proxy proxy :: ap =>
           args <- in_array (store_word args p (proxy_id proxy)) ;;
           vmarshal_loop rest ap args (S p)
       | _ => Undefined BadVarArg
       end
  \/ vmarshal_loop (String c rest) ap args p = Fatal AssertFailed.
Proof.
  destruct c as [b0 b1 b2 b3 b4 b5 b6 b7].
  destruct b0, b1, b2, b3, b4, b5, b6, b7;
    first [ left; reflexivity
          | right; left; reflexivity
          | right; right; left; reflexivity
          | right; right; right; left; reflexivity
          | right; right; right; right; reflexivity ].
Qed.

Lemma write_bytes_some_length (a a' : list byte) (off : nat) (bs : list byte) :
  write_bytes a off bs = Some a' ->
  length a' = length a /\ (off + length bs <= length a)%nat.
Proof.
  unfold write_bytes.
  destruct (Nat.leb_spec (off + length bs) (length a)); [|discriminate].
  intros E; inversion E; subst.
  rewrite !length_app, length_firstn, length_skipn. lia.
Qed.

(** A returning loop has stayed inside [args] and has only moved forward. *)
Lemma vmarshal_loop_bounds (signature : string) :
  forall (ap : list arg) (args args' : list byte) (p p' : nat),
    length args = scratch_bytes ->
    (p <= scratch_words)%nat ->
    vmarshal_loop signature ap args p = Ret (args', p') ->
    length args' = scratch_bytes /\ (p <= p' <= scratch_words)%nat.
Proof.
  unfold scratch_bytes, scratch_words.
  induction signature as [|c rest IH]; intros ap args args' p p' Hlen Hp H.
  - cbn in H. inversion H; subst. lia.
  - destruct (vmarshal_loop_cases c rest ap args p)
      as [E | [E | [E | [E | E]]]]; rewrite E in H; clear E.
    + inversion H; subst. lia.
    + destruct ap as [|[v|s|q] ap]; try discriminate.
      apply bind_ret_inv in H as (a1 & H1 & H).
      apply in_array_ret_inv in H1. unfold store_word in H1.
      apply write_bytes_some_length in H1 as [L1 B1].
      rewrite length_le_split in B1.
      apply IH in H; [lia | lia | lia].
    + destruct ap as [|[v|s|q] ap]; try discriminate.
      apply bind_ret_inv in H as (a1 & H1 & H).
      apply bind_ret_inv in H as (a2 & H2 & H).
      apply in_array_ret_inv in H1, H2. unfold store_word in H1.
      apply write_bytes_some_length in H1 as [L1 B1].
      apply write_bytes_some_length in H2 as [L2 B2].
      rewrite length_le_split in B1. rewrite string_copy_length in B2.
      pose proof (padding_spec s) as [Hpad Hpad4].
      apply IH in H; [lia | lia | lia].
    + destruct ap as [|[v|s|q] ap]; try discriminate.
      apply bind_ret_inv in H as (a1 & H1 & H).
      apply in_array_ret_inv in H1. unfold store_word in H1.
      apply write_bytes_some_length in H1 as [L1 B1].
      rewrite length_le_split in B1.
      apply IH in H; [lia | lia | lia].
    + discriminate.
Qed.

(** X9.  Whatever the signature and the arguments, a call that returns has
    handed the transport exactly one buffer, of 8 to 128 bytes and a whole
    number of words, and has changed nothing else in the session. *)
Theorem marshal_writes_once (d d' : wl_display) (target : wl_proxy)
    (opcode : Z) (ap : list arg) :
  wl_proxy_vmarshal d target opcode ap = Ret d' ->
  exists data : list byte,
    d' = wl_display_write d data
    /\ written (connection d') = written (connection d) ++ [data]
    /\ pending (connection d') = pending (connection d)
    /\ (8 <= length data <= scratch_bytes)%nat
    /\ (length data mod 4 = 0)%nat.
Proof.
  unfold wl_proxy_vmarshal. intros H.
  apply bind_ret_inv in H as (sg & _ & H).
  apply bind_ret_inv in H as ([args p] & Hloop & H).
  apply bind_ret_inv in H as (args1 & H1 & H).
  apply bind_ret_inv in H as (args2 & H2 & H).
  apply bind_ret_inv in H as (data & Hdata & H).
  inversion H; subst; clear H.
  apply vmarshal_loop_bounds in Hloop
    as [Largs Hp]; [| apply uninitialized_length | unfold scratch_words; lia].
  unfold scratch_words, scratch_bytes in *.
  apply in_array_ret_inv in Hdata.
  rewrite uint32_small in Hdata by lia.
  unfold read_bytes in Hdata.
  destruct (Nat.leb_spec (0 + Z.to_nat (Z.of_nat p * 4)) (length args2));
    [| discriminate].
  inversion Hdata; subst; clear Hdata.
  exists (firstn (Z.to_nat (Z.of_nat p * 4)) (skipn 0 args2)).
  rewrite length_firstn, skipn_O.
  replace (Nat.min (Z.to_nat (Z.of_nat p * 4)) (length args2))
    with (p * 4)%nat by lia.
  repeat split; try reflexivity; try lia.
  apply Nat.Div0.mod_mul.
Qed.

(** ** Signatures the marshaller has no case for *)

Lemma unmarshalled_char_aborts (c : ascii) (rest : string) (ap : list arg)
    (args : list byte) (p : nat) :
  marshalled_char c = false -> c <> "000"%char ->
  vmarshal_loop (String c rest) ap args p = Fatal AssertFailed.
Proof.
  destruct c as [b0 b1 b2 b3 b4 b5 b6 b7].
  destruct b0, b1, b2, b3, b4, b5, b6, b7; cbn; intros H N;
    first [ reflexivity | discriminate | now contradiction N ].
Qed.

(** The fields of a matching prefix of the signature are laid out, and the
    loop goes on with the rest of the signature behind them. *)
Lemma vmarshal_loop_prefix (prefix : string) :
  forall (ap1 : list arg) (rest : string) (ap2 : list arg)
         (pre tail : list byte) (p : nat),
    args_match prefix ap1 = true ->
    length pre = (4 * p)%nat ->
    (4 * payload_words ap1 <= length tail)%nat ->
    vmarshal_loop (prefix ++ rest) (ap1 ++ ap2) (pre ++ tail) p
    = vmarshal_loop rest ap2
        (pre ++ payload_bytes tail ap1 ++ skipn (4 * payload_words ap1) tail)
        (p + payload_words ap1)%nat.
Proof.
  induction prefix as [|c prefix IH]; intros ap1 rest ap2 pre tail p Hm Hpre Hfit.
  - destruct ap1; [|discriminate].
    cbn [String.append app payload_bytes payload_words fold_right].
    rewrite Nat.mul_0_r, skipn_O, Nat.add_0_r. reflexivity.
  - destruct ap1 as [|a ap1]; [discriminate|].
    cbn [args_match] in Hm. apply andb_true_iff in Hm as [Hc Hm].
    cbn [payload_words fold_right] in Hfit |- *.
    fold (payload_words ap1) in Hfit |- *.
    cbn [String.append app].
    destruct a as [v | s | q].
    + rewrite arg_matches_uint by assumption.
      cbn [field_words] in Hfit |- *.
      rewrite store_word_app by lia. cbn [in_array bind].
      rewrite (app_assoc pre).
      rewrite IH; [| assumption | rewrite length_app, length_le_split; lia
                   | rewrite length_skipn; lia].
      cbn [payload_bytes field_bytes field_words].
      rewrite skipn_skipn, <- !app_assoc. layout.
    + rewrite arg_matches_string by assumption.
      cbn [field_words] in Hfit |- *.
      pose proof (padding_spec s) as [Hpad Hpad4].
      pose proof (string_copy_length s) as Hcopy.
      set (n := Z.to_nat (string_length s)) in *.
      set (w := Z.to_nat (DIV_ROUNDUP (string_length s) 4)) in *.
      rewrite store_word_app by lia. cbn [in_array bind].
      rewrite (app_assoc pre).
      replace (4 * S p)%nat with (length (pre ++ le_split 4 (string_length s)))
        by (rewrite length_app, length_le_split; lia).
      rewrite write_bytes_app by (rewrite length_skipn; lia).
      cbn [in_array bind]. rewrite Hcopy, skipn_skipn.
      rewrite <- (firstn_skipn (padding s) (skipn (n + 4) tail)).
      rewrite skipn_skipn.
      replace ((pre ++ le_split 4 (string_length s)) ++ firstn n s
               ++ firstn (padding s) (skipn (n + 4) tail)
               ++ skipn (padding s + (n + 4)) tail)
        with ((pre ++ le_split 4 (string_length s) ++ firstn n s
               ++ firstn (padding s) (skipn (n + 4) tail))
              ++ skipn (padding s + (n + 4)) tail)
        by now rewrite <- !app_assoc.
      rewrite IH; [| assumption
                   | rewrite !length_app, length_le_split, Hcopy, length_firstn,
                       length_skipn; lia
                   | rewrite length_skipn; lia].
      cbn [payload_bytes field_bytes field_words].
      fold n. fold w.
      rewrite skipn_skipn, <- !app_assoc.
      replace (4 + n)%nat with (n + 4)%nat by lia.
      replace (padding s + (n + 4))%nat with (4 * S w)%nat by lia.
      layout.
    + rewrite arg_matches_proxy by assumption.
      cbn [field_words] in Hfit |- *.
      rewrite store_word_app by lia. cbn [in_array bind].
      rewrite (app_assoc pre).
      rewrite IH; [| assumption | rewrite length_app, length_le_split; lia
                   | rewrite length_skipn; lia].
      cbn [payload_bytes field_bytes field_words].
      rewrite skipn_skipn, <- !app_assoc. layout.
Qed.

(** X10.  A signature character other than u, i, s, n and o ends the process
    by [assert(0)] as soon as the loop reaches it, the arguments before it
    having matched and fitted: no buffer is handed to the transport. *)
Theorem unknown_signature_char_aborts (d : wl_display) (target : wl_proxy)
    (opcode : Z) (prefix : string) (c : ascii) (rest : string)
    (ap1 ap2 : list arg) :
  method_signature target opcode = Ret (prefix ++ String c rest)%string ->
  args_match prefix ap1 = true ->
  (message_words ap1 <= scratch_words)%nat ->
  marshalled_char c = false ->
  c <> "000"%char ->
  wl_proxy_vmarshal d target opcode (ap1 ++ ap2) = Fatal AssertFailed.
Proof.
  intros Hsig Hm Hfit Hc Hnul. unfold wl_proxy_vmarshal.
  rewrite Hsig. cbn [bind].
  pose proof (uninitialized_length scratch_bytes) as HU.
  unfold message_words, scratch_words, scratch_bytes in *.
  rewrite <- (firstn_skipn 8 (uninitialized 128)).
  rewrite vmarshal_loop_prefix;
    [| assumption | rewrite length_firstn; lia | rewrite length_skipn; lia].
  now rewrite unmarshalled_char_aborts.
Qed.

(** ** Requests of one-word arguments *)

Lemma scalar_payload (ap : list arg) :
  forallb scalar ap = true ->
  payload_words ap = length ap
  /\ forall tail, payload_bytes tail ap = flat_map (le_split 4) (map arg_word ap).
Proof.
  induction ap as [|a ap IH]; intros H; [split; reflexivity|].
  cbn [forallb] in H. apply andb_true_iff in H as [Ha H].
  destruct (IH H) as [Hw Hb].
  cbn [payload_words fold_right payload_bytes map flat_map length].
  fold (payload_words ap). rewrite Hw.
  destruct a as [v | s | q]; try discriminate;
    (split; [reflexivity | intros tail; cbn [field_bytes arg_word]; now rewrite Hb]).
Qed.

(** A call of at most 30 one-word arguments that match the signature always
    fits: it hands the transport the object, the packed opcode and size, and
    the argument words in the order they were passed. *)
Lemma scalar_call (d : wl_display) (target : wl_proxy) (opcode : Z)
    (signature : string) (ap : list arg) :
  method_signature target opcode = Ret signature ->
  args_match signature ap = true ->
  forallb scalar ap = true ->
  (length ap <= 30)%nat ->
  wl_proxy_vmarshal d target opcode ap
  = Ret (wl_display_write d
           (request_message (proxy_id target) opcode (map arg_word ap))).
Proof.
  intros Hsig Hm Hs Hn. destruct (scalar_payload ap Hs) as [Hw Hb].
  rewrite (wl_proxy_vmarshal_fits d target opcode signature ap Hsig Hm)
    by (unfold message_words, scratch_words; lia).
  unfold wire_message, request_message, message_words.
  rewrite Hb, Hw, length_map.
  rewrite (uint32_small (Z.of_nat (2 + length ap) * 4)) by lia.
  replace (Z.of_nat (2 + length ap) * 4) with (Z.of_nat (8 + 4 * length ap))
    by lia.
  reflexivity.
Qed.

(** X11.  The requests on a compositor or a surface take a fixed number of
    one-word arguments, so they cannot outgrow the marshaller's buffer:
    whenever the protocol's signature for the method matches the arguments
    the wrapper passes, the call hands the transport one message that carries
    the proxy's id, the opcode packed with the size, and the arguments in the
    order of the C parameters; a visual is sent as its id. *)
Theorem fixed_requests_fit (d : wl_display) (compositor : wl_compositor)
    (surface : wl_surface) (visual : wl_visual) (a b c e f g h k : Z) :
  (forall sg,
      method_signature (compositor_proxy compositor) WL_COMPOSITOR_COMMIT
      = Ret sg ->
      args_match sg [arg_uint a] = true ->
      wl_compositor_commit d compositor a
      = Ret (wl_display_write d
               (request_message (proxy_id (compositor_proxy compositor))
                  WL_COMPOSITOR_COMMIT [a])))
  /\ (forall sg,
        method_signature (surface_proxy surface) WL_SURFACE_DESTROY = Ret sg ->
        args_match sg [] = true ->
        wl_surface_destroy d surface
        = Ret (wl_display_write d
                 (request_message (proxy_id (surface_proxy surface))
                    WL_SURFACE_DESTROY [])))
  /\ (forall sg,
        method_signature (surface_proxy surface) WL_SURFACE_ATTACH = Ret sg ->
        args_match sg [arg_uint a; arg_uint b; arg_uint c; arg_uint e;
                       arg_proxy (visual_proxy visual)] = true ->
        wl_surface_attach d surface a b c e visual
        = Ret (wl_display_write d
                 (request_message (proxy_id (surface_proxy surface))
                    WL_SURFACE_ATTACH
                    [a; b; c; e; proxy_id (visual_proxy visual)])))
  /\ (forall sg,
        method_signature (surface_proxy surface) WL_SURFACE_MAP = Ret sg ->
        args_match sg [arg_uint a; arg_uint b; arg_uint c; arg_uint e] = true ->
        wl_surface_map d surface a b c e
        = Ret (wl_display_write d
                 (request_message (proxy_id (surface_proxy surface))
                    WL_SURFACE_MAP [a; b; c; e])))
  /\ (forall sg,
        method_signature (surface_proxy surface) WL_SURFACE_COPY = Ret sg ->
        args_match sg [arg_uint a; arg_uint b; arg_uint c; arg_uint e;
                       arg_uint f; arg_uint g; arg_uint h; arg_uint k] = true ->
        wl_surface_copy d surface a b c e f g h k
        = Ret (wl_display_write d
                 (request_message (proxy_id (surface_proxy surface))
                    WL_SURFACE_COPY [a; b; c; e; f; g; h; k])))
  /\ (forall sg,
        method_signature (surface_proxy surface) WL_SURFACE_DAMAGE = Ret sg ->
        args_match sg [arg_uint a; arg_uint b; arg_uint c; arg_uint e] = true ->
        wl_surface_damage d surface a b c e
        = Ret (wl_display_write d
                 (request_message (proxy_id (surface_proxy surface))
                    WL_SURFACE_DAMAGE [a; b; c; e]))).
Proof.
  repeat split; intros sg Hsig Hm;
    unfold wl_compositor_commit, wl_surface_destroy, wl_surface_attach,
      wl_surface_map, wl_surface_copy, wl_surface_damage, wl_proxy_marshal;
    rewrite (scalar_call _ _ _ sg _ Hsig Hm);
    try reflexivity; cbn [length]; lia.
Qed.

(** X12.  [wl_compositor_create_surface] gives the new surface the value of
    the id counter, advances the counter by one modulo 2^32, and tells the
    server with one message on the compositor that carries that id; when the
    allocation of the surface record fails it returns NULL and has neither
    used an id nor written anything. *)
Theorem create_surface_allocates (d : wl_display) (compositor : wl_compositor)
    (sg : string) :
  method_signature (compositor_proxy compositor) WL_COMPOSITOR_CREATE_SURFACE
  = Ret sg ->
  (forall p : wl_proxy, args_match sg [arg_proxy p] = true) ->
  (malloc_ok (mallocs d) = true ->
   exists (surface : wl_surface) (d' : wl_display),
     wl_compositor_create_surface d compositor = Ret (Some surface, d')
     /\ surface_proxy surface
        = {| interface := Some wl_surface_interface; proxy_id := id d |}
     /\ id d' = uint32 (id d + 1)
     /\ written (connection d')
        = written (connection d)
            ++ [request_message (proxy_id (compositor_proxy compositor))
                  WL_COMPOSITOR_CREATE_SURFACE [id d]])
  /\ (malloc_ok (mallocs d) = false ->
      exists d' : wl_display,
        wl_compositor_create_surface d compositor = Ret (None, d')
        /\ id d' = id d
        /\ connection d' = connection d).
Proof.
  intros Hsig Hm. unfold wl_compositor_create_surface, malloc.
  split; intros Hmem; rewrite Hmem; cbn [negb].
  - unfold wl_display_allocate_id, wl_proxy_marshal.
    rewrite (scalar_call _ _ _ sg _ Hsig (Hm _)); [| reflexivity | cbn; lia].
    cbn [bind]. eexists. eexists. split; [reflexivity|].
    repeat split.
  - eexists. split; [reflexivity|]. split; reflexivity.
Qed.

(** ** Binding the compositor *)

(** X13.  [wl_display_get_compositor] binds the first recorded global whose
    name reads "compositor": it returns a proxy with that global's id and the
    compositor interface.  It returns NULL when no global has that name, and
    also when the first one that has it carries id 0; when the proxy cannot
    be allocated the NULL returned by [malloc] is written through. *)
Theorem get_compositor_binds_first (d : wl_display) :
  ((forall g, In g (global_list d) ->
              c_str (global_interface g) <> compositor_name) ->
   wl_display_get_compositor d = Ret (None, d))
  /\ (forall before g after,
        global_list d = before ++ g :: after ->
        (forall b, In b before ->
                   c_str (global_interface b) <> compositor_name) ->
        c_str (global_interface g) = compositor_name ->
        (global_id g = 0 -> wl_display_get_compositor d = Ret (None, d))
        /\ (global_id g <> 0 -> malloc_ok (mallocs d) = true ->
            wl_display_get_compositor d
            = Ret (Some {| compositor_proxy :=
                             {| interface := Some wl_compositor_interface;
                                proxy_id := global_id g |} |},
                   with_mallocs d (S (mallocs d))))
        /\ (global_id g <> 0 -> malloc_ok (mallocs d) = false ->
            wl_display_get_compositor d = Undefined NullPointer)).
Proof.
  unfold wl_display_get_compositor, wl_display_get_object_id, malloc.
  fold compositor_name.
  split.
  - intros Hnone. rewrite get_object_id_scan_miss; [reflexivity|].
    intros g Hin E. apply (Hnone g Hin). apply strcmp_zero in E. exact E.
  - intros before g after Hg Hbefore Hname. rewrite Hg.
    rewrite get_object_id_scan_first.
    + repeat split.
      * intros ->. reflexivity.
      * intros Hid Hmem. destruct (Z.eqb_spec (global_id g) 0); [contradiction|].
        rewrite Hmem. reflexivity.
      * intros Hid Hmem. destruct (Z.eqb_spec (global_id g) 0); [contradiction|].
        rewrite Hmem. reflexivity.
    + intros b Hin E. apply (Hbefore b Hin). apply strcmp_zero in E. exact E.
    + apply strcmp_zero. exact Hname.
Qed.

(** ** What a new session holds *)

(** X14.  [wl_display_create] returns NULL exactly when the allocation of the
    display, [socket] or [connect] fails.  A session it returns has its id
    counter seeded with the value of the handshake, no handler, nothing
    written, and no call made: events other than GLOBAL that the server sent
    ahead were consumed by the first pass and dropped; its visuals all come
    from recorded globals.  When the transport reports an error in that first
    pass the process exits. *)
Theorem display_create_outcomes (fuel : nat) (srv : server) :
  (wl_display_create fuel srv = Ret None
   <-> malloc_ok 0 = false \/ socket_result srv < 0 \/ connect_result srv < 0)
  /\ (forall d : wl_display,
        wl_display_create fuel srv = Ret (Some d) ->
        id d = handshake srv
        /\ interface (proxy d) = Some wl_display_interface
        /\ event_handler d = None
        /\ delivered d = []
        /\ written (connection d) = []
        /\ visuals_recorded d)
  /\ (malloc_ok 0 = true -> 0 <= socket_result srv ->
      0 <= connect_result srv -> greeting_failed srv = true ->
      wl_display_create fuel srv = Fatal ExitFailure).
Proof.
  unfold wl_display_create. cbn [fd].
  destruct (malloc_ok 0); cbn [negb].
  2:{ split; [split; [intros _; now left | reflexivity]|].
      split; [discriminate | discriminate]. }
  destruct (Z.ltb_spec (socket_result srv) 0) as [Hs | Hs].
  { split; [split; [intros _; right; now left | reflexivity]|].
    split; [discriminate | lia]. }
  destruct (Z.ltb_spec (connect_result srv) 0) as [Hc | Hc].
  { split; [split; [intros _; right; now right | reflexivity]|].
    split; [discriminate | lia]. }
  set (d0 := with_connection _ (wl_connection_create srv)).
  split; [| split].
  - split.
    + intros H. destruct (wl_display_iterate fuel d0 WL_CONNECTION_READABLE);
        discriminate.
    + intros [H | [H | H]]; [discriminate | lia | lia].
  - intros d H.
    apply bind_ret_inv in H as (d1 & H1 & H). inversion H; subst; clear H.
    pose proof (wl_display_iterate_grows _ _ _ _ H1) as (Hp & _).
    unfold wl_display_iterate in H1.
    apply bind_ret_inv in H1 as ([d2 len] & Hloop & H).
    destruct (len <? 0); [discriminate|]. inversion H; subst; clear H.
    assert (Hv : visuals_recorded d)
      by (eapply visuals_recorded_loop; [| exact Hloop]; constructor).
    apply iterate_loop_without_handler in Hloop as (Hi & Hh & Hw & Hd);
      [| reflexivity].
    rewrite Hp, Hi, Hh, Hw, Hd. repeat split; try reflexivity. exact Hv.
  - intros _ _ _ Hfail. unfold wl_display_iterate, wl_connection_data.
    cbn [d0 connection with_connection wl_connection_create failed].
    rewrite Hfail, iterate_loop_unfold. reflexivity.
Qed.

(** ** The readiness callback *)

Lemma report_masks_forwarded (f : Z -> Z) (ms : list Z) :
  forall (d : wl_display) (calls : list Z),
    report_masks ms d {| update := Some f; update_calls := calls |}
    = (map f ms, fold_left with_mask ms d,
       {| update := Some f; update_calls := calls ++ ms |}).
Proof.
  induction ms as [|m ms IH]; intros d calls.
  - cbn. now rewrite app_nil_r.
  - cbn [report_masks connection_update update update_calls mask with_mask].
    rewrite IH. cbn [map fold_left]. now rewrite <- app_assoc.
Qed.

Lemma report_masks_unheard (ms : list Z) :
  forall (d : wl_display) (calls : list Z),
    report_masks ms d {| update := None; update_calls := calls |}
    = (map (fun _ => 0) ms, fold_left with_mask ms d,
       {| update := None; update_calls := calls |}).
Proof.
  induction ms as [|m ms IH]; intros d calls; [reflexivity|].
  cbn [report_masks connection_update update]. rewrite IH. reflexivity.
Qed.

Lemma last_of_nonempty (ms : list Z) :
  forall m a b : Z, last (m :: ms) a = last (m :: ms) b.
Proof.
  induction ms as [|z ms IH]; intros m a b; [reflexivity|].
  change (last (z :: ms) a = last (z :: ms) b). apply IH.
Qed.

Lemma fold_with_mask (ms : list Z) :
  forall d : wl_display,
    mask (fold_left with_mask ms d) = last ms (mask d)
    /\ global_list (fold_left with_mask ms d) = global_list d
    /\ id (fold_left with_mask ms d) = id d
    /\ connection (fold_left with_mask ms d) = connection d.
Proof.
  induction ms as [|m ms IH]; intros d; [repeat split|].
  cbn [fold_left]. destruct (IH (with_mask d m)) as (Hm & Hg & Hi & Hc).
  rewrite Hm, Hg, Hi, Hc. repeat split.
  destruct ms as [|z ms]; [reflexivity|].
  change (last (z :: ms) (mask (with_mask d m)) = last (z :: ms) (mask d)).
  apply last_of_nonempty.
Qed.

(** X15.  [wl_display_get_fd] installs the callback, calls it once with the
    current mask and returns the descriptor; from then on every mask the
    transport reports is stored in the session and passed to the callback,
    once each and in order, and the callback's answer is handed back to the
    transport.  While no callback is installed the mask is stored and the
    transport is answered 0.  Nothing but the mask changes in the session. *)
Theorem mask_reports_forwarded (d : wl_display) (u : wl_update) (f : Z -> Z)
    (ms : list Z) :
  (exists u1 : wl_update,
      wl_display_get_fd d u (Some f) = Ret (fd d, u1)
      /\ forall answers d' u',
           report_masks ms d u1 = (answers, d', u') ->
           answers = map f ms
           /\ update_calls u' = update_calls u ++ mask d :: ms
           /\ mask d' = last ms (mask d)
           /\ global_list d' = global_list d /\ id d' = id d
           /\ connection d' = connection d)
  /\ (update u = None ->
      forall answers d' u',
        report_masks ms d u = (answers, d', u') ->
        answers = map (fun _ => 0) ms
        /\ u' = u
        /\ mask d' = last ms (mask d)).
Proof.
  split.
  - eexists. split; [reflexivity|].
    cbn [update update_calls]. intros answers d' u' H.
    rewrite report_masks_forwarded in H. inversion H; subst; clear H.
    destruct (fold_with_mask ms d) as (Hm & Hg & Hi & Hc).
    cbn [update_calls]. rewrite <- app_assoc.
    repeat split; assumption.
  - intros Hnone answers d' u' H. destruct u as [uf calls].
    cbn in Hnone. subst uf.
    rewrite report_masks_unheard in H. inversion H; subst; clear H.
    destruct (fold_with_mask ms d) as (Hm & _).
    repeat split. exact Hm.
Qed.

(** ** Headers *)

Lemma header_word_parts (w : Z) :
  0 <= w < 2 ^ 32 ->
  0 <= Z.land w 65535 < 2 ^ 16
  /\ 0 <= Z.shiftr w 16 < 2 ^ 16
  /\ Z.lor (Z.land w 65535) (Z.shiftl (Z.shiftr w 16) 16) = w.
Proof.
  intros Hw. change 65535 with (Z.ones 16).
  rewrite Z.land_ones, Z.shiftr_div_pow2 by lia.
  assert (H1 : 0 <= w mod 2 ^ 16 < 2 ^ 16) by (apply Z.mod_pos_bound; lia).
  assert (H2 : 0 <= w / 2 ^ 16 < 2 ^ 16).
  { split; [apply Z.div_pos; lia|]. apply Z.div_lt_upper_bound; lia. }
  split; [exact H1|]. split; [exact H2|].
  rewrite header_word by exact H1.
  pose proof (Z.div_mod w (2 ^ 16) ltac:(lia)). lia.
Qed.

(** X16.  Any eight bytes unpack as a header: an object id below 2^32, an
    opcode and a size below 2^16, so that no message can declare more than
    65535 bytes; and packing the three again gives back the eight bytes. *)
Theorem unpack_header_inverse (p : list byte) :
  length p = 8%nat ->
  exists object opcode size : Z,
    unpack_header p = Ret (object, opcode, size)
    /\ 0 <= object < 2 ^ 32
    /\ 0 <= opcode < 2 ^ 16
    /\ 0 <= size < 2 ^ 16
    /\ le_split 4 object ++ le_split 4 (Z.lor opcode (Z.shiftl size 16)) = p.
Proof.
  intros Hlen.
  set (a := firstn 4 p). set (b := skipn 4 p).
  assert (Ha : length a = 4%nat) by (unfold a; rewrite length_firstn; lia).
  assert (Hb : length b = 4%nat) by (unfold b; rewrite length_skipn; lia).
  assert (Hp : p = a ++ b) by (unfold a, b; now rewrite firstn_skipn).
  clearbody a b.
  pose proof (le_combine_bound a) as Ba. pose proof (le_combine_bound b) as Bb.
  rewrite Ha in Ba. rewrite Hb in Bb.
  change (2 ^ (8 * Z.of_nat 4)) with (2 ^ 32) in Ba, Bb.
  destruct (header_word_parts (le_combine b) Bb) as (Hop & Hsz & Hw).
  exists (le_combine a), (Z.land (le_combine b) 65535),
    (Z.shiftr (le_combine b) 16).
  repeat split; try lia.
  - assert (R0 : read_bytes (a ++ b) (4 * 0) 4 = Some a)
      by (apply (read_bytes_app' [] a b); [reflexivity | now rewrite Ha]).
    assert (R1 : read_bytes (a ++ b) (4 * 1) 4 = Some b).
    { rewrite <- (app_nil_r b) at 1.
      apply (read_bytes_app' a b []); [now rewrite Ha | now rewrite Hb]. }
    unfold unpack_header, load_word. rewrite Hp, R0, R1. reflexivity.
  - rewrite Hw, Hp. rewrite <- Ha at 1. rewrite <- Hb at 1.
    now rewrite !split_le_combine.
Qed.

(** ** Allocation failure while recording *)

(** X17.  When the allocation of the global record fails, a GLOBAL event that
    fits the buffer is consumed all the same and nothing is recorded: the
    announcement is lost without a trace. *)
Theorem global_lost_without_memory (d : wl_display) (size : Z) :
  malloc_ok (mallocs d) = false ->
  0 <= size <= Z.of_nat scratch_bytes ->
  (Z.to_nat size <= length (pending (connection d)))%nat ->
  exists d' : wl_display,
    handle_event d 1 WL_DISPLAY_GLOBAL size = Ret d'
    /\ global_list d' = global_list d
    /\ visual_list d' = visual_list d
    /\ delivered d' = delivered d
    /\ pending (connection d') = skipn (Z.to_nat size) (pending (connection d)).
Proof.
  intros Hmem Hsize Hpending. unfold handle_event, wl_connection_copy.
  destruct (Nat.leb_spec (Z.to_nat size) (length (pending (connection d))));
    [| lia].
  cbn [bind].
  destruct (write_bytes_inside (uninitialized scratch_bytes) 0
              (firstn (Z.to_nat size) (pending (connection d))))
    as (p & -> & _).
  { rewrite uninitialized_length, length_firstn. unfold scratch_bytes in *. lia. }
  cbn [in_array bind]. rewrite !Z.eqb_refl. cbn [andb].
  unfold handle_global, malloc. rewrite Hmem. cbn [negb bind].
  eexists. split; [reflexivity|]. repeat split.
Qed.

(** ** Events followed by a partial message *)



(** ** Changing the handler between passes *)



(** ** Visual proxies *)

Lemma visuals_bare_event (d d' : wl_display) (object opcode size : Z) :
  visuals_bare d ->
  handle_event d object opcode size = Ret d' ->
  visuals_bare d'.
Proof.
  unfold handle_event. intros Hinv H.
  apply bind_ret_inv in H as (bytes & _ & H).
  apply bind_ret_inv in H as (p & _ & H).
  apply bind_ret_inv in H as (d1 & H1 & H).
  inversion H; subst; clear H.
  unfold visuals_bare in *. cbn [visual_list with_connection].
  destruct ((object =? 1) && (opcode =? WL_DISPLAY_GLOBAL)).
  - apply handle_global_ret in H1
      as (_ & _ & _ & _ & _ & [[_ ->] | (gid & len & nm & ver & _ & _ & _
                                         & _ & _ & Hv)]); [exact Hinv|].
    destruct Hv as [-> | [_ ->]]; [exact Hinv|].
    apply Forall_app. split; [exact Hinv|].
    constructor; [reflexivity | constructor].
  - destruct (event_handler d) as [h|]; inversion H1; subst; [| exact Hinv].
    match goal with
    | |- context [call_event_handler d ?c] =>
        destruct (call_event_handler_keeps d c) as (_ & _ & _ & K4 & K5 & _)
    end.
    rewrite ?K4, K5. exact Hinv.
Qed.

Lemma visuals_bare_loop (fuel : nat) :
  forall (d d' : wl_display) (len len' : Z),
    visuals_bare d ->
    iterate_loop fuel d len = Ret (d', len') -> visuals_bare d'.
Proof.
  induction fuel as [|fuel IH]; intros d d' len len' Hinv H;
    rewrite iterate_loop_unfold in H;
    destruct (len >? 0); try (inversion H; subst; exact Hinv);
    destruct (len <? 8); try (inversion H; subst; exact Hinv);
    apply bind_ret_inv in H as (bytes & _ & H);
    apply bind_ret_inv in H as (p & _ & H);
    apply bind_ret_inv in H as ([[object opcode] size] & _ & H);
    destruct (len <? size); try (inversion H; subst; exact Hinv);
    try discriminate.
  apply bind_ret_inv in H as (d1 & H1 & H).
  apply (visuals_bare_event d d1) in H1; [| exact Hinv].
  now apply IH in H.
Qed.

Lemma visuals_bare_pass (fuel : nat) (d d' : wl_display) (mask : Z) :
  visuals_bare d ->
  wl_display_iterate fuel d mask = Ret d' ->
  visuals_bare d'.
Proof.
  unfold wl_display_iterate. intros Hinv H.
  apply bind_ret_inv in H as ([d1 len] & H1 & H).
  destruct (len <? 0); [discriminate|]. inversion H; subst.
  now apply visuals_bare_loop in H1.
Qed.

(** X20.  A visual's proxy is good as an argument only.  [add_visual] gives
    it an id and no interface, and no pass changes that: in a session that
    [wl_display_create] returned, and after any number of further passes, a
    request marshalled on a visual's proxy reads a signature through a
    pointer that was never set and has no defined outcome, whatever the
    opcode and the arguments. *)
Theorem visual_proxy_never_target (fuel : nat) (srv : server)
    (d : wl_display) (passes : list (nat * Z)) :
  wl_display_create fuel srv = Ret (Some d) ->
  forall d' : wl_display,
    fold_left (fun s pass => s <- s ;; wl_display_iterate (fst pass) s (snd pass))
      passes (Ret d) = Ret d' ->
    forall (v : wl_visual) (opcode : Z) (ap : list arg),
      In v (visual_list d') ->
      exists why : undefined,
        wl_proxy_vmarshal d' (visual_proxy v) opcode ap = Undefined why.
Proof.
  intros Hcreate d' Hpasses v opcode ap Hin.
  assert (Hbare : visuals_bare d).
  { unfold wl_display_create in Hcreate.
    destruct (negb (malloc_ok 0)); [discriminate|].
    cbn [fd] in Hcreate.
    destruct (socket_result srv <? 0); [discriminate|].
    destruct (connect_result srv <? 0); [discriminate|].
    apply bind_ret_inv in Hcreate as (d1 & H1 & H). inversion H; subst.
    apply visuals_bare_pass in H1; [exact H1 | constructor]. }
  assert (Hbare' : visuals_bare d').
  { clear Hcreate Hin. revert d Hbare Hpasses.
    induction passes as [|[n m] passes IH]; intros d Hbare Hpasses.
    - cbn in Hpasses. inversion Hpasses; subst. exact Hbare.
    - cbn [fold_left bind fst snd] in Hpasses.
      destruct (wl_display_iterate n d m) as [d1| | |] eqn:E.
      + apply (IH d1); [| exact Hpasses].
        now apply (visuals_bare_pass n d d1 m).
      + exfalso. clear -Hpasses.
        induction passes as [|p ps IHp]; [discriminate | now apply IHp].
      + exfalso. clear -Hpasses.
        induction passes as [|p ps IHp]; [discriminate | now apply IHp].
      + exfalso. clear -Hpasses.
        induction passes as [|p ps IHp]; [discriminate | now apply IHp]. }
  unfold visuals_bare in Hbare'. rewrite Forall_forall in Hbare'.
  specialize (Hbare' v Hin).
  unfold wl_proxy_vmarshal, method_signature. rewrite Hbare'.
  eexists. reflexivity.
Qed.

End Client.

(** * The model on concrete inputs *)

(** ** Marshalling and decoding *)

Lemma sample_args_representable : Forall representable sample_args.
Proof.
  unfold sample_args.
  constructor; [cbn; lia|].
  constructor; [split; [reflexivity | vm_compute; reflexivity]|].
  constructor; [cbn; lia | constructor].
Qed.

Lemma marshal_decode_roundtrip_witness :
  let d := sample_display 100 [] in
  method_signature sample_proxy 0 = Ret "usu"%string
  /\ args_match "usu" sample_args = true
  /\ (message_words sample_args <= scratch_words)%nat
  /\ exists msg : list byte,
       wl_proxy_vmarshal sample_junk d sample_proxy 0 sample_args
       = Ret (wl_display_write d msg)
       /\ unpack_header (firstn 8 msg) = Ret (7, 0, Z.of_nat (length msg))
       /\ decode_args "usu" msg 2
          = Some (map value_of sample_args, message_words sample_args)
       /\ length msg = (4 * message_words sample_args)%nat.
Proof.
  intros d.
  assert (H1 : method_signature sample_proxy 0 = Ret "usu"%string)
    by reflexivity.
  assert (H2 : args_match "usu" sample_args = true) by reflexivity.
  assert (H3 : (message_words sample_args <= scratch_words)%nat)
    by (vm_compute; lia).
  split; [exact H1|]. split; [exact H2|]. split; [exact H3|].
  apply (marshal_decode_roundtrip sample_junk d sample_proxy 0 "usu"
           sample_args H1 H2 sample_args_representable H3); cbn; lia.
Defined.

(** A string of 120 bytes matches the signature "s", yet the call yields no
    message at all: its 33 words do not fit [args], and the run ends in a
    store outside the array. *)
Lemma roundtrip_counterexample :
  method_signature sample_proxy 1 = Ret "s"%string
  /\ args_match "s" long_args = true
  /\ Forall representable long_args
  /\ forall d' : wl_display,
       wl_proxy_vmarshal sample_junk (sample_display 100 []) sample_proxy 1
         long_args <> Ret d'.
Proof.
  split; [reflexivity|]. split; [reflexivity|]. split.
  - unfold long_args. constructor; [|constructor].
    split; [reflexivity | vm_compute; reflexivity].
  - intros d'.
    replace (wl_proxy_vmarshal sample_junk (sample_display 100 []) sample_proxy
               1 long_args) with (@Undefined wl_display OutOfBounds)
      by (vm_compute; reflexivity).
    discriminate.
Qed.

(** A string with a zero byte inside comes back cut at that byte: [strlen]
    measures the C string. *)
Lemma roundtrip_zero_byte :
  let s := [Byte.x61; Byte.x00; Byte.x62] in
  exists msg : list byte,
    wl_proxy_vmarshal sample_junk (sample_display 100 []) sample_proxy 1
      [arg_string s]
    = Ret (wl_display_write (sample_display 100 []) msg)
    /\ decode_args "s" msg 2 = Some ([val_string [Byte.x61]], 4%nat)
    /\ [val_string [Byte.x61]] <> map value_of [arg_string s].
Proof.
  eexists. split; [vm_compute; reflexivity|].
  split; [vm_compute; reflexivity | discriminate].
Qed.

(** An opcode of 2^16 spills into the size half of the header word: the
    8-byte message unpacks as opcode 0 and size 9. *)
Lemma roundtrip_wide_opcode :
  exists msg : list byte,
    wl_proxy_vmarshal sample_junk (sample_display 100 [])
      {| interface := Some wide_interface; proxy_id := 7 |} 65536 []
    = Ret (wl_display_write (sample_display 100 []) msg)
    /\ length msg = 8%nat
    /\ unpack_header (firstn 8 msg) = Ret (7, 0, 9).
Proof.
  eexists. split; [vm_compute; reflexivity|].
  split; vm_compute; reflexivity.
Qed.

Lemma string_field_layout_witness :
  let d := sample_display 100 [] in
  method_signature sample_proxy 0 = Ret "usu"%string
  /\ args_match "usu" ([arg_uint 5] ++ arg_string visual_name :: [arg_uint 9])
     = true
  /\ exists msg : list byte,
       wl_proxy_vmarshal sample_junk d sample_proxy 0
         ([arg_uint 5] ++ arg_string visual_name :: [arg_uint 9])
       = Ret (wl_display_write d msg)
       /\ read_bytes msg 12 4 = Some (le_split 4 6)
       /\ read_bytes msg 16 6 = Some visual_name
       /\ read_bytes msg 22 2 = Some [Byte.xaa; Byte.xaa].
Proof.
  intros d.
  assert (H1 : method_signature sample_proxy 0 = Ret "usu"%string)
    by reflexivity.
  assert (H2 : args_match "usu"
                 ([arg_uint 5] ++ arg_string visual_name :: [arg_uint 9])
               = true) by reflexivity.
  assert (H3 : (message_words
                  ([arg_uint 5] ++ arg_string visual_name :: [arg_uint 9])
                <= scratch_words)%nat) by (vm_compute; lia).
  split; [exact H1|]. split; [exact H2|].
  destruct (string_field_layout sample_junk d sample_proxy 0 "usu"
              [arg_uint 5] [arg_uint 9] visual_name H1 H2 H3)
    as (msg & Hm & Hl & Hs & Hp & _).
  exists msg. split; [exact Hm|]. split; [exact Hl|]. split; [exact Hs|].
  exact Hp.
Defined.

(** The padding of "a" in a buffer that held 0xaa bytes is three 0xaa bytes,
    not three zero bytes. *)
Lemma padding_counterexample :
  exists msg : list byte,
    wl_proxy_vmarshal sample_junk (sample_display 100 []) sample_proxy 1
      [arg_string [Byte.x61]]
    = Ret (wl_display_write (sample_display 100 []) msg)
    /\ read_bytes msg 8 4 = Some (le_split 4 1)
    /\ read_bytes msg 12 1 = Some [Byte.x61]
    /\ read_bytes msg 13 3 = Some [Byte.xaa; Byte.xaa; Byte.xaa]
    /\ read_bytes msg 13 3 <> Some [Byte.x00; Byte.x00; Byte.x00].
Proof.
  eexists. split; [vm_compute; reflexivity|].
  repeat split; try (vm_compute; reflexivity).
  vm_compute. discriminate.
Qed.

Lemma marshal_overflow_unguarded_witness :
  method_signature sample_proxy 1 = Ret "s"%string
  /\ args_match "s" longer_args = true
  /\ (scratch_words < message_words longer_args)%nat
  /\ wl_proxy_vmarshal sample_junk (sample_display 100 []) sample_proxy 1
       longer_args = Undefined OutOfBounds.
Proof.
  assert (H1 : method_signature sample_proxy 1 = Ret "s"%string) by reflexivity.
  assert (H2 : args_match "s" longer_args = true) by reflexivity.
  assert (H3 : (scratch_words < message_words longer_args)%nat)
    by (vm_compute; lia).
  split; [exact H1|]. split; [exact H2|]. split; [exact H3|].
  exact (marshal_overflow_unguarded sample_junk (sample_display 100 [])
           sample_proxy 1 "s" longer_args H1 H2 H3).
Defined.

(** No buffer reaches the transport on that input, and none is refused
    either: the run has no defined outcome. *)
Lemma marshal_overflow_evaluated :
  wl_proxy_vmarshal sample_junk (sample_display 100 []) sample_proxy 1
    longer_args = Undefined OutOfBounds
  /\ wl_proxy_vmarshal sample_junk (sample_display 100 []) sample_proxy 1
       longer_args <> Fatal AssertFailed.
Proof. split; [vm_compute; reflexivity | vm_compute; discriminate]. Qed.

(** ** Dispatch *)

Lemma oversize_event_unguarded_witness :
  let d := sample_display 100 oversize_event in
  (Z.to_nat 132 <= length (pending (connection d)))%nat
  /\ Z.of_nat scratch_bytes < 132
  /\ handle_event sample_junk granted sample_handlers 3 d 9 2 132 = Undefined OutOfBounds
  /\ forall why : fatal, handle_event sample_junk granted sample_handlers 3 d 9 2 132 <> Fatal why.
Proof.
  intros d.
  assert (H1 : (Z.to_nat 132 <= length (pending (connection d)))%nat)
    by (vm_compute; lia).
  assert (H2 : Z.of_nat scratch_bytes < 132) by (vm_compute; reflexivity).
  split; [exact H1|]. split; [exact H2|].
  destruct (oversize_event_unguarded sample_junk granted sample_handlers 3 d 9 2 132 H1)
    as (Hnever & Hover & _).
  split; [exact (Hover H2) | exact Hnever].
Defined.

(** A dispatch pass over that message reads its header, finds the 132 bytes
    it declares available, and runs into the copy. *)
Lemma oversize_event_evaluated :
  unpack_header (firstn 8 oversize_event) = Ret (9, 2, 132)
  /\ length oversize_event = 132%nat
  /\ wl_display_iterate sample_junk granted sample_handlers 3 1
       (sample_display 100 oversize_event) 1
     = Undefined OutOfBounds.
Proof. repeat split; vm_compute; reflexivity. Qed.

(** Inside the 128 bytes, too, the reads of [handle_global] follow the
    length word of the message unchecked: a 20-byte GLOBAL event that
    announces a 1000-byte name makes [memcpy] read past [p]. *)
Lemma global_length_unchecked :
  unpack_header (firstn 8 lying_event) = Ret (1, 3, 20)
  /\ length lying_event = 20%nat
  /\ handle_event sample_junk granted sample_handlers 3 (sample_display 100 lying_event) 1 3 20
     = Undefined OutOfBounds.
Proof. repeat split; vm_compute; reflexivity. Qed.



(** ** The registry *)



Lemma lookup_miss_witness :
  let d := after_global 3 (sample_display 100 (global_event 3 10 visual_name 1))
             10 visual_name 1 in
  no_match (global_list d) other_name
  /\ length (visual_list d) = 1%nat
  /\ wl_display_get_object_id d other_name = 0
  /\ wl_display_get_argb_visual d = VisualAt 0.
Proof.
  intros d.
  assert (H : no_match (global_list d) other_name).
  { intros g [<- | []]. vm_compute. discriminate. }
  destruct (lookup_miss granted d other_name H) as (Hmiss & _ & Hargb & _).
  split; [exact H|]. split; [reflexivity|]. split; [exact Hmiss|].
  apply Hargb. vm_compute. lia.
Defined.

(** With no visual recorded the ARGB accessor returns a pointer made from
    the list head, which is neither null nor a visual; with one visual
    recorded the RGB accessor walks round the list to that one visual. *)
Lemma visual_miss_counterexample :
  let d := sample_display 100 [] in
  let d1 := after_global 3 d 10 visual_name 1 in
  visual_list d = []
  /\ wl_display_get_argb_visual d = HeadAlias
  /\ wl_display_get_argb_visual d <> NullVisual
  /\ visual_id d (wl_display_get_argb_visual d) = None
  /\ length (visual_list d1) = 1%nat
  /\ wl_display_get_premultiplied_argb_visual d1 = HeadAlias
  /\ wl_display_get_rgb_visual d1 = VisualAt 0.
Proof. repeat split; try reflexivity. discriminate. Qed.

(** ** Session creation *)

Lemma display_proxy_id_witness :
  let srv := {| socket_result := 3; connect_result := 0; handshake := 100;
                greeting := global_event 3 1 display_name 1;
                greeting_failed := false |} in
  exists d : wl_display,
    wl_display_create sample_junk granted sample_handlers 3 sample_interface 1 1 srv
    = Ret (Some d)
    /\ proxy_id (proxy d) = 0
    /\ wl_display_get_object_id d display_name = 1.
Proof.
  intros srv.
  destruct (wl_display_create sample_junk granted sample_handlers 3 sample_interface 1 1 srv)
    as [[d|]| | |] eqn:E; try (vm_compute in E; discriminate).
  exists d. split; [reflexivity|].
  split; [exact (display_proxy_id sample_junk granted sample_handlers 3 sample_interface 1 1
                   srv d E)|].
  vm_compute in E. inversion E. reflexivity.
Defined.

(** ** The id allocator *)

Lemma allocation_sequence_witness :
  let d := sample_display 100 [] in
  let rs := [AllocateId; SurfaceDestroy sample_surface; AllocateId] in
  0 <= id d < 2 ^ 32
  /\ exists (ids : list Z) (d' : wl_display),
       run_requests sample_junk 2 rs d = Ret (ids, d')
       /\ ids = [100; 101]
       /\ NoDup ids.
Proof.
  intros d rs.
  assert (H : 0 <= id d < 2 ^ 32) by (cbn; lia).
  split; [exact H|].
  destruct (run_requests sample_junk 2 rs d) as [[ids d']| | |] eqn:E;
    try (vm_compute in E; discriminate).
  exists ids, d'. split; [reflexivity|].
  destruct (allocation_sequence sample_junk 2 rs d d' ids H E) as (_ & Hseq & Hnd).
  split; [apply Hseq; vm_compute; discriminate
         | apply Hnd; vm_compute; discriminate].
Defined.

(** Seeded with 2^32 - 1, two consecutive allocations return 2^32 - 1 and
    then 0, not 2^32. *)
Lemma allocation_counterexample :
  let d := sample_display 4294967295 [] in
  exists (ids : list Z) (d' : wl_display),
    run_requests sample_junk 2 [AllocateId; AllocateId] d = Ret (ids, d')
    /\ ids = [4294967295; 0]
    /\ ids <> [id d; id d + 1].
Proof.
  intros d. eexists. eexists.
  split; [vm_compute; reflexivity|].
  split; [reflexivity | vm_compute; discriminate].
Qed.

Lemma allocate_id_wraps_witness :
  let d := sample_display 7 [] in
  0 <= id d < 2 ^ 32
  /\ id (allocate_many (2 ^ 32) d) = id d
  /\ fst (wl_display_allocate_id (allocate_many (2 ^ 32) d)) = id d.
Proof.
  intros d.
  assert (H : 0 <= id d < 2 ^ 32) by (unfold d, sample_display, id; lia).
  destruct (allocate_id_wraps d H) as (_ & _ & _ & Hw & Hagain).
  split; [exact H|]. split; [exact Hw | exact Hagain].
Defined.

(** ** The registry, continued *)

Lemma handle_global_records_witness :
  let d := sample_display 100 [] in
  let buf := global_event 3 10 visual_name 1 in
  exists d' : wl_display,
    handle_global granted d (buf, 2%nat) 28 = Ret d'
    /\ map global_id (global_list d') = [10]
    /\ map (fun v => proxy_id (visual_proxy v)) (visual_list d') = [10].
Proof.
  intros d buf.
  destruct (handle_global granted d (buf, 2%nat) 28) as [d'| | |] eqn:E;
    try (vm_compute in E; discriminate).
  exists d'. split; [reflexivity|].
  destruct (handle_global_records granted d d' buf 2 28
              (fun _ => eq_refl) E) as (g & Hg & Hid & Hv).
  assert (Hgid : global_id g = 10)
    by (vm_compute in Hid; now inversion Hid).
  rewrite Hg. cbn. rewrite Hgid. split; [reflexivity|].
  destruct Hv as [[_ ->] | [Hn Hv]].
  - cbn. now rewrite Hgid.
  - exfalso. apply Hn. vm_compute in E. inversion E; subst d'.
    cbn in Hg. inversion Hg. reflexivity.
Defined.


Lemma dispatch_keeps_visuals_recorded_witness :
  let d := after_global 3
             (sample_display 100
                (global_event 3 10 visual_name 1
                   ++ global_event 3 11 visual_name 1))
             10 visual_name 1 in
  visuals_recorded d
  /\ exists d' : wl_display,
       wl_display_iterate sample_junk granted sample_handlers 3 1 d 1 = Ret d'
       /\ visuals_recorded d'.
Proof.
  intros d.
  assert (H : visuals_recorded d).
  { constructor; [| constructor].
    eexists. split; [left; reflexivity|]. split; reflexivity. }
  split; [exact H|].
  destruct (wl_display_iterate sample_junk granted sample_handlers 3 1 d 1) as [d'| | |] eqn:E;
    try (vm_compute in E; discriminate).
  exists d'. split; [reflexivity|].
  exact (dispatch_keeps_visuals_recorded sample_junk granted sample_handlers 3 1 d d' 1 H E).
Defined.

(** ** Events for the handler *)

Lemma sample_events_deliverable : Forall (deliverable 3) sample_events.
Proof.
  repeat constructor; cbn; try lia; vm_compute; discriminate.
Qed.


Lemma events_dropped_without_handler_witness :
  let rest := [Byte.x01; Byte.x02] in
  let d := unheard_display 100
             (concat (map event_message sample_events) ++ rest) in
  exists d' : wl_display,
    wl_display_iterate sample_junk granted sample_handlers 3 2 d 1 = Ret d'
    /\ delivered d' = []
    /\ pending (connection d') = rest
    /\ id d' = 100
    /\ written (connection d') = [].
Proof.
  intros rest d.
  destruct (events_dropped_without_handler sample_junk granted sample_handlers
              3 d 1 sample_events rest sample_events_deliverable
              eq_refl eq_refl eq_refl)
    as (d' & Hrun & Hcalls & Hrest & _ & _ & (Hi & _ & Hw & _)).
  - cbn. lia.
  - exists d'. split; [exact Hrun|]. split; [exact Hcalls|].
    split; [exact Hrest|]. split; [exact Hi | exact Hw].
Defined.

Lemma zero_size_header_never_returns_witness :
  let d := sample_display 100 empty_size_event in
  unpack_header (firstn 8 (pending (connection d))) = Ret (9, 2, 0)
  /\ (wl_display_iterate sample_junk granted sample_handlers 3 5 d 1 = OutOfFuel
      \/ exists why,
           wl_display_iterate sample_junk granted sample_handlers 3 5 d 1 = Undefined why).
Proof.
  intros d.
  assert (H : unpack_header (firstn 8 (pending (connection d))) = Ret (9, 2, 0))
    by (vm_compute; reflexivity).
  split; [exact H|].
  apply (zero_size_header_never_returns sample_junk granted sample_handlers 3 5 d 1 9 2);
    [reflexivity | vm_compute; lia | exact H].
Defined.

Lemma dispatch_pass_edges_witness :
  wl_display_iterate sample_junk granted sample_handlers 3 5
    (broken_display (concat (map event_message sample_events))) 1
  = Fatal ExitFailure
  /\ wl_display_iterate sample_junk granted sample_handlers 3 5
       (sample_display 100 [Byte.x01; Byte.x02; Byte.x03]) 1
     = Ret (sample_display 100 [Byte.x01; Byte.x02; Byte.x03]).
Proof.
  split.
  - apply (dispatch_pass_edges sample_junk granted sample_handlers 3 5
             (broken_display (concat (map event_message sample_events))) 1).
    reflexivity.
  - apply (dispatch_pass_edges sample_junk granted sample_handlers 3 5
             (sample_display 100 [Byte.x01; Byte.x02; Byte.x03]) 1);
      [reflexivity | cbn; lia].
Defined.


Lemma unpack_header_inverse_witness :
  exists object opcode size : Z,
    unpack_header (firstn 8 partial_event) = Ret (object, opcode, size)
    /\ 0 <= object < 2 ^ 32
    /\ 0 <= opcode < 2 ^ 16
    /\ 0 <= size < 2 ^ 16
    /\ le_split 4 object ++ le_split 4 (Z.lor opcode (Z.shiftl size 16))
       = firstn 8 partial_event.
Proof.
  apply (unpack_header_inverse (firstn 8 partial_event)). reflexivity.
Defined.

Lemma global_lost_without_memory_witness :
  let d := sample_display 100 (global_event 3 10 visual_name 1) in
  exists d' : wl_display,
    handle_event sample_junk refused sample_handlers 3 d 1 3 28 = Ret d'
    /\ global_list d' = []
    /\ visual_list d' = []
    /\ delivered d' = []
    /\ pending (connection d') = [].
Proof.
  intros d.
  apply (global_lost_without_memory sample_junk refused sample_handlers 3 d 28);
    [reflexivity | vm_compute; split; discriminate | vm_compute; lia].
Defined.

(** ** Requests *)

Lemma marshal_writes_once_witness :
  let d := sample_display 100 [] in
  exists (d' : wl_display) (data : list byte),
    wl_proxy_vmarshal sample_junk d sample_proxy 0 sample_args = Ret d'
    /\ written (connection d') = [data]
    /\ (8 <= length data <= scratch_bytes)%nat
    /\ (length data mod 4 = 0)%nat.
Proof.
  intros d.
  destruct (wl_proxy_vmarshal sample_junk d sample_proxy 0 sample_args)
    as [d'| | |] eqn:E; try (vm_compute in E; discriminate).
  destruct (marshal_writes_once sample_junk d d' sample_proxy 0 sample_args E)
    as (data & _ & Hw & _ & Hlen & Hmod).
  exists d', data. split; [reflexivity|].
  split; [exact Hw|]. split; [exact Hlen | exact Hmod].
Defined.

Lemma unknown_signature_char_aborts_witness :
  let target := {| interface := Some descriptor_interface; proxy_id := 7 |} in
  method_signature target 0 = Ret "uh"%string
  /\ marshalled_char "h" = false
  /\ wl_proxy_vmarshal sample_junk (sample_display 100 []) target 0
       ([arg_uint 5] ++ [arg_uint 6])
     = Fatal AssertFailed.
Proof.
  intros target. split; [reflexivity|]. split; [reflexivity|].
  apply (unknown_signature_char_aborts sample_junk (sample_display 100 [])
           target 0 "u" "h" "" [arg_uint 5] [arg_uint 6]);
    [reflexivity | reflexivity | vm_compute; lia | reflexivity | discriminate].
Defined.

Lemma fixed_requests_fit_witness :
  let d := sample_display 100 [] in
  wl_compositor_commit sample_junk 1 d sample_compositor 77
  = Ret (wl_display_write d (request_message 4 1 [77]))
  /\ wl_surface_destroy sample_junk 0 d drawing_surface
     = Ret (wl_display_write d (request_message 8 0 []))
  /\ wl_surface_attach sample_junk 1 d drawing_surface 77 640 480 2560
       sample_visual
     = Ret (wl_display_write d (request_message 8 1 [77; 640; 480; 2560; 10]))
  /\ wl_surface_map sample_junk 2 d drawing_surface 77 640 480 2560
     = Ret (wl_display_write d (request_message 8 2 [77; 640; 480; 2560]))
  /\ wl_surface_copy sample_junk 3 d drawing_surface 77 640 480 2560 1 2 3 4
     = Ret (wl_display_write d
              (request_message 8 3 [77; 640; 480; 2560; 1; 2; 3; 4]))
  /\ wl_surface_damage sample_junk 4 d drawing_surface 77 640 480 2560
     = Ret (wl_display_write d (request_message 8 4 [77; 640; 480; 2560])).
Proof.
  intros d.
  destruct (fixed_requests_fit sample_junk 1 0 1 2 3 4 d sample_compositor
              drawing_surface sample_visual 77 640 480 2560 1 2 3 4)
    as (H1 & H2 & H3 & H4 & H5 & H6).
  split; [exact (H1 _ eq_refl eq_refl)|].
  split; [exact (H2 _ eq_refl eq_refl)|].
  split; [exact (H3 _ eq_refl eq_refl)|].
  split; [exact (H4 _ eq_refl eq_refl)|].
  split; [exact (H5 _ eq_refl eq_refl) | exact (H6 _ eq_refl eq_refl)].
Defined.

Lemma create_surface_allocates_witness :
  let d := sample_display 4294967295 [] in
  (exists (surface : wl_surface) (d' : wl_display),
      wl_compositor_create_surface sample_junk granted 0 surface_requests d
        sample_compositor = Ret (Some surface, d')
      /\ proxy_id (surface_proxy surface) = 4294967295
      /\ id d' = 0
      /\ written (connection d') = [request_message 4 0 [4294967295]])
  /\ exists d' : wl_display,
       wl_compositor_create_surface sample_junk refused 0 surface_requests d
         sample_compositor = Ret (None, d')
       /\ id d' = 4294967295
       /\ connection d' = connection d.
Proof.
  intros d.
  assert (Hsig : method_signature (compositor_proxy sample_compositor) 0
                 = Ret "n"%string) by reflexivity.
  assert (Hm : forall p : wl_proxy, args_match "n" [arg_proxy p] = true)
    by (intros p; reflexivity).
  split.
  - destruct (create_surface_allocates sample_junk granted 0 surface_requests
                d sample_compositor "n" Hsig Hm) as [Hyes _].
    destruct (Hyes eq_refl) as (surface & d' & Hrun & Hp & Hid & Hw).
    exists surface, d'. split; [exact Hrun|].
    split; [rewrite Hp; reflexivity|]. split; [exact Hid | exact Hw].
  - destruct (create_surface_allocates sample_junk refused 0 surface_requests
                d sample_compositor "n" Hsig Hm) as [_ Hno].
    exact (Hno eq_refl).
Defined.

Lemma get_compositor_binds_first_witness :
  let d := after_global 3
             (after_global 3
                (after_global 3 (sample_display 100 []) 10 visual_name 1)
                4 compositor_name 1)
             5 compositor_name 1 in
  map global_id (global_list d) = [10; 4; 5]
  /\ wl_display_get_compositor granted compositor_requests d
     = Ret (Some sample_compositor, with_mallocs d (S (mallocs d)))
  /\ wl_display_get_compositor granted compositor_requests
       (sample_display 100 [])
     = Ret (None, sample_display 100 []).
Proof.
  intros d. split; [reflexivity|]. split.
  - destruct (get_compositor_binds_first granted compositor_requests d)
      as [_ H].
    destruct (H [ {| global_id := 10; global_interface := visual_name;
                     global_version := 1 |} ]
                {| global_id := 4; global_interface := compositor_name;
                   global_version := 1 |}
                [ {| global_id := 5; global_interface := compositor_name;
                     global_version := 1 |} ]
                eq_refl) as (_ & Hbind & _).
    + intros b [<- | []]. vm_compute. discriminate.
    + reflexivity.
    + apply Hbind; [cbn; lia | reflexivity].
  - destruct (get_compositor_binds_first granted compositor_requests
                (sample_display 100 [])) as [H _].
    apply H. intros g [].
Defined.

(** ** Session creation, continued *)

Lemma display_create_outcomes_witness :
  let srv := {| socket_result := 3; connect_result := 0; handshake := 100;
                greeting := concat (map event_message sample_events)
                              ++ global_event 3 10 visual_name 1;
                greeting_failed := false |} in
  let down := {| socket_result := 3; connect_result := -1; handshake := 100;
                 greeting := []; greeting_failed := false |} in
  let cut := {| socket_result := 3; connect_result := 0; handshake := 100;
                greeting := []; greeting_failed := true |} in
  (exists d : wl_display,
      wl_display_create sample_junk granted sample_handlers 3 sample_interface 1 3 srv
      = Ret (Some d)
      /\ id d = 100
      /\ delivered d = []
      /\ map global_id (global_list d) = [10]
      /\ visuals_recorded d)
  /\ wl_display_create sample_junk granted sample_handlers 3 sample_interface 1 3 down
     = Ret None
  /\ wl_display_create sample_junk granted sample_handlers 3 sample_interface 1 3 cut
     = Fatal ExitFailure.
Proof.
  intros srv down cut. split; [| split].
  - destruct (wl_display_create sample_junk granted sample_handlers 3 sample_interface 1 3 srv)
      as [[d|]| | |] eqn:E; try (vm_compute in E; discriminate).
    exists d. split; [reflexivity|].
    destruct (display_create_outcomes sample_junk granted sample_handlers 3 sample_interface
                1 3 srv) as (_ & H & _).
    destruct (H d E) as (Hid & _ & _ & Hc & _ & Hv).
    split; [exact Hid|]. split; [exact Hc|]. split; [| exact Hv].
    vm_compute in E. inversion E. reflexivity.
  - destruct (display_create_outcomes sample_junk granted sample_handlers 3 sample_interface
                1 3 down) as ([_ H] & _ & _).
    apply H. right. right. cbn. lia.
  - destruct (display_create_outcomes sample_junk granted sample_handlers 3 sample_interface
                1 3 cut) as (_ & _ & H).
    apply H; [reflexivity | cbn; lia | cbn; lia | reflexivity].
Defined.

(** ** The readiness callback *)

Lemma mask_reports_forwarded_witness :
  let d := sample_display 100 [] in
  let u := {| update := None; update_calls := [] |} in
  (exists u1 : wl_update,
      wl_display_get_fd d u (Some (Z.add 1)) = Ret (3, u1)
      /\ fst (fst (report_masks [1; 3; 2] d u1)) = [2; 4; 3]
      /\ update_calls (snd (report_masks [1; 3; 2] d u1)) = [0; 1; 3; 2]
      /\ mask (snd (fst (report_masks [1; 3; 2] d u1))) = 2)
  /\ fst (fst (report_masks [1; 3; 2] d u)) = [0; 0; 0].
Proof.
  intros d u.
  destruct (mask_reports_forwarded d u (Z.add 1) [1; 3; 2])
    as [(u1 & Hfd & Hrep) Hnone].
  split.
  - exists u1. split; [exact Hfd|].
    destruct (report_masks [1; 3; 2] d u1) as [[answers d'] u'] eqn:E.
    destruct (Hrep answers d' u' eq_refl) as (Ha & Hc & Hm & _).
    split; [exact Ha|]. split; [exact Hc | exact Hm].
  - destruct (report_masks [1; 3; 2] d u) as [[answers d'] u'] eqn:E.
    destruct (Hnone eq_refl answers d' u' eq_refl) as (Ha & _).
    exact Ha.
Defined.

(** ** Marshalling into dispatch *)

Lemma marshal_then_dispatch_evaluated :
  let target := {| interface := Some sample_interface; proxy_id := 1 |} in
  let sender := sample_display 100 [] in
  exists msg : list byte,
    wl_proxy_vmarshal sample_junk sender target 0
      (global_args 10 visual_name 1)
    = Ret (wl_display_write sender msg)
    /\ handle_event sample_junk granted sample_handlers 0 (sample_display 200 msg) 1 0
         (Z.of_nat (length msg))
       = Ret (after_global 0 (sample_display 200 msg) 10 visual_name 1).
Proof.
  intros target sender.
  destruct (marshal_then_dispatch sample_junk granted sample_handlers 0 sender
              (sample_display 200
                 (wire_message 1 0 (skipn 8 (uninitialized sample_junk
                                               scratch_bytes))
                    (global_args 10 visual_name 1)))
              target 10 visual_name 1 [])
    as (msg & Hsend & Hrecv).
  - intros k. reflexivity.
  - reflexivity.
  - reflexivity.
  - repeat constructor; cbn; lia.
  - vm_compute. lia.
  - exists msg. split; [exact Hsend|].
    assert (Hmsg : msg = wire_message 1 0
                           (skipn 8 (uninitialized sample_junk scratch_bytes))
                           (global_args 10 visual_name 1)).
    { vm_compute in Hsend. inversion Hsend. reflexivity. }
    subst msg. rewrite Hrecv; [reflexivity|].
    cbn [sample_display connection pending]. now rewrite app_nil_r.
Qed.

(** ** Handlers and visuals over several passes *)



Lemma visual_proxy_never_target_witness :
  let srv := {| socket_result := 3; connect_result := 0; handshake := 100;
                greeting := global_event 3 10 visual_name 1;
                greeting_failed := false |} in
  exists d : wl_display,
    wl_display_create sample_junk granted sample_handlers 3 sample_interface 1 1 srv
    = Ret (Some d)
    /\ visual_list d = [sample_visual]
    /\ exists why : undefined,
         wl_proxy_vmarshal sample_junk d (visual_proxy sample_visual) 0 []
         = Undefined why.
Proof.
  intros srv.
  destruct (wl_display_create sample_junk granted sample_handlers 3 sample_interface 1 1 srv)
    as [[d|]| | |] eqn:E; try (vm_compute in E; discriminate).
  assert (Hv : visual_list d = [sample_visual])
    by (vm_compute in E; inversion E; reflexivity).
  exists d. split; [reflexivity|]. split; [exact Hv|].
  apply (visual_proxy_never_target sample_junk granted sample_handlers 3 sample_interface 1 1
           srv d [] E d eq_refl sample_visual 0 []).
  rewrite Hv. left. reflexivity.
Defined.
